(** * CC-CEDICT parser (main.py): a shallow embedding and its properties

    The definitions follow main.py function by function:
    - [PyStr]: Python's [str] as a list of code points, with the [str]
      methods and the one regular-expression substitution main.py calls;
    - the error monad [result] for code that may raise;
    - [get_pinyin_from_characters], [get_zhuyin_from_characters],
      [parse_cc_cedict_line], [parse_cc_cedict_file] over an abstract
      pypinyin;
    - [Json]: [json.dump(..., ensure_ascii=False, indent=2)] and [json.loads]
      on the values main.py writes, and [save_to_json].
    The facts come after them: about the string operations, the parser,
    the decoder, and then the properties of the program itself. *)

From Stdlib Require Import Ascii String.
From Stdlib Require Import List NArith ZArith Bool Arith Lia Sorted.
Import ListNotations.

Set Warnings "-register-all".

(* ===================================================================== *)
(** ** Python strings *)
(* ===================================================================== *)

Module PyStr.

(** A Python 3 [str] is a sequence of Unicode code points; [len] counts
    code points, so a string is a list of them. *)
Definition char : Type := N.
Definition str : Type := list char.

(** ASCII literals, for readable examples. *)
Definition lit (s : string) : str := map N_of_ascii (list_ascii_of_string s).

Definition TAB : char := 9%N.
Definition NEWLINE : char := 10%N.
Definition SPACE : char := 32%N.
Definition QUOTE : char := 34%N.
Definition HASH : char := 35%N.
Definition SLASH : char := 47%N.
Definition LBRACKET : char := 91%N.
Definition BACKSLASH : char := 92%N.
Definition RBRACKET : char := 93%N.

(** [a == b] *)
Fixpoint str_eqb (a b : str) : bool :=
  match a, b with
  | [], [] => true
  | x :: a', y :: b' => (x =? y)%N && str_eqb a' b'
  | _, _ => false
  end.

(** [len(s)] *)
Definition len (s : str) : nat := length s.

(** [c.isspace()], the characters [str.strip()] removes: CPython's
    [_Py_ascii_whitespace] table below 128 and [_PyUnicode_IsWhitespace]
    above. *)
Definition isspace (c : char) : bool :=
  ((9 <=? c) && (c <=? 13) || (28 <=? c) && (c <=? 32)
   || (c =? 133) || (c =? 160) || (c =? 5760)
   || (8192 <=? c) && (c <=? 8202)
   || (c =? 8232) || (c =? 8233) || (c =? 8239) || (c =? 8287)
   || (c =? 12288))%N.

(** [s.lstrip()], [s.rstrip()], [s.strip()] *)
Fixpoint lstrip (s : str) : str :=
  match s with
  | [] => []
  | c :: s' => if isspace c then lstrip s' else s
  end.

Definition rstrip (s : str) : str := rev (lstrip (rev s)).

Definition strip (s : str) : str := rstrip (lstrip s).

(** [s.startswith(p)], [s.endswith(p)] *)
Fixpoint startswith (s p : str) {struct p} : bool :=
  match p with
  | [] => true
  | d :: p' =>
      match s with
      | [] => false
      | c :: s' => (c =? d)%N && startswith s' p'
      end
  end.

Definition endswith (s p : str) : bool := startswith (rev s) (rev p).

(** A character that is not a separator belongs to the first piece of
    what follows it. *)
Definition cons_piece (c : char) (ps : list str) : list str :=
  match ps with
  | [] => [[c]]
  | p :: ps' => (c :: p) :: ps'
  end.

(** [s.split(sep, maxsplit)] for a one-character [sep]; [None] is Python's
    default [maxsplit=-1] (no limit).  Every occurrence of [sep] splits,
    so adjacent separators give empty pieces, and the empty string gives
    one empty piece. *)
Fixpoint split (sep : char) (maxsplit : option nat) (s : str) : list str :=
  match s with
  | [] => [[]]
  | c :: s' =>
      match (c =? sep)%N, maxsplit with
      | true, None => [] :: split sep None s'
      | true, Some (S n) => [] :: split sep (Some n) s'
      | _, _ => cons_piece c (split sep maxsplit s')
      end
  end.

(** [sep.join(pieces)] *)
Fixpoint join (sep : str) (pieces : list str) : str :=
  match pieces with
  | [] => []
  | [p] => p
  | p :: ps => p ++ sep ++ join sep ps
  end.

(** [s[start:stop]] with Python's treatment of negative and out-of-range
    indices. *)
Definition clamp_index (n i : Z) : Z :=
  if (i <? 0)%Z then Z.max 0 (i + n) else Z.min i n.

Definition slice (s : str) (start stop : Z) : str :=
  let n := Z.of_nat (length s) in
  let a := clamp_index n start in
  let b := clamp_index n stop in
  firstn (Z.to_nat (b - a)) (skipn (Z.to_nat a) s).

(** [re.sub(r'\[.*?\]', '', s)].  The pattern has no flags, so [.] matches
    every character except the newline.  Scanning from the left, a match at
    [[] is the shortest one: it ends at the first []] after it, and exists
    only when no newline comes before that []].  [after_close] is the text
    after that []], when there is a match. *)
Fixpoint after_close (s : str) : option str :=
  match s with
  | [] => None
  | c :: s' =>
      if (c =? RBRACKET)%N then Some s'
      else if (c =? NEWLINE)%N then None
      else after_close s'
  end.

Definition closes (s : str) : bool :=
  match after_close s with Some _ => true | None => false end.

(** [re_sub_brackets] copies characters until a match starts, and
    [skip_match] drops the matched span; the search resumes right after the
    span, as [re.sub] does with non-overlapping matches. *)
Fixpoint re_sub_brackets (s : str) : str :=
  match s with
  | [] => []
  | c :: s' =>
      if (c =? LBRACKET)%N && closes s' then skip_match s'
      else c :: re_sub_brackets s'
  end
with skip_match (s : str) : str :=
  match s with
  | [] => []
  | c :: s' =>
      if (c =? RBRACKET)%N then re_sub_brackets s' else skip_match s'
  end.

(** [s.split()] with no argument: the maximal runs of non-whitespace
    characters.  main.py does not call it; the specification speaks of
    whitespace-delimited tokens, and this is their definition. *)
Fixpoint split_whitespace (s : str) : list str :=
  match s with
  | [] => []
  | c :: s' =>
      if isspace c then split_whitespace s'
      else match s' with
           | [] => [[c]]
           | d :: _ =>
               if isspace d then [c] :: split_whitespace s'
               else cons_piece c (split_whitespace s')
           end
  end.

End PyStr.

Import PyStr.

(* ===================================================================== *)
(** ** Exceptions *)
(* ===================================================================== *)

(** The exceptions the modelled code can raise: an index out of range, and
    whatever pypinyin raises (with its message).  Both are subclasses of
    [Exception], which is what [parse_cc_cedict_file] catches. *)
Inductive exception : Type :=
| IndexError
| OracleError (msg : str).

Inductive result (A : Type) : Type :=
| Ok (a : A)
| Raise (e : exception).

Arguments Ok {A} a.
Arguments Raise {A} e.

Definition bind {A B : Type} (c : result A) (k : A -> result B) : result B :=
  match c with
  | Ok a => k a
  | Raise e => Raise e
  end.

Notation "x <- c ;; k" := (bind c (fun x => k))
  (at level 61, c at next level, right associativity).

(** [l[i]] for a non-negative [i] *)
Definition index {A : Type} (l : list A) (i : nat) : result A :=
  match nth_error l i with
  | Some x => Ok x
  | None => Raise IndexError
  end.

(** Truth value of a string or a list: it is not empty. *)
Definition truthy {A : Type} (l : list A) : bool :=
  match l with
  | [] => false
  | _ :: _ => true
  end.

(* ===================================================================== *)
(** ** The entry and the line parser *)
(* ===================================================================== *)

(** pypinyin's [Style.TONE] and [Style.BOPOMOFO] *)
Inductive Style : Type := TONE | BOPOMOFO.

(** The dict that [parse_cc_cedict_line] returns has the same six keys on
    every path, so it is a record; [entry_items] further down lists it as
    the dict it is, in insertion order. *)
Record entry : Type := mkEntry {
  traditional : str;
  simplified : str;
  pinyin : str;
  zhuyin : str;
  meaning : list str;
  is_idiom : bool
}.

(** Python values that [json] reads and writes: [None], [bool], [str],
    [list] and [dict] with string keys (a dict keeps insertion order, so it
    is the list of its items). *)
Inductive value : Type :=
| VNone
| VBool (b : bool)
| VStr (s : str)
| VList (l : list value)
| VDict (items : list (str * value)).

(** The dict literal at the end of [parse_cc_cedict_line]. *)
Definition entry_items (e : entry) : list (str * value) :=
  [ (lit "traditional", VStr (traditional e));
    (lit "simplified", VStr (simplified e));
    (lit "pinyin", VStr (pinyin e));
    (lit "zhuyin", VStr (zhuyin e));
    (lit "meaning", VList (map VStr (meaning e)));
    (lit "is_idiom", VBool (is_idiom e)) ].

Definition entry_value (e : entry) : value := VDict (entry_items e).

(** A warning that [parse_cc_cedict_file] prints: the line number and the
    exception in [f"Warning: Error parsing line {line_num}: {e}"]. *)
Definition warning : Type := (nat * exception)%type.

Section Parser.

(** [pypinyin.pinyin(characters, style=...)]: the external transliteration
    library.  It returns one list of readings per syllable, or raises. *)
Variable pypinyin : str -> Style -> result (list (list str)).

(** [[item[0] for item in l if item[0]]] *)
Fixpoint first_readings (l : list (list str)) : result (list str) :=
  match l with
  | [] => Ok []
  | item :: l' =>
      reading <- index item 0 ;;
      rest <- first_readings l' ;;
      Ok (if truthy reading then reading :: rest else rest)
  end.

Definition get_zhuyin_from_characters (characters : str) : result str :=
  if negb (truthy characters) then Ok []
  else
    zhuyin_list <- pypinyin characters BOPOMOFO ;;
    items <- first_readings zhuyin_list ;;
    Ok (join [SPACE] items).

Definition get_pinyin_from_characters (characters : str) : result str :=
  if negb (truthy characters) then Ok []
  else
    pinyin_list <- pypinyin characters TONE ;;
    items <- first_readings pinyin_list ;;
    Ok (join [SPACE] items).

(** The [meanings] list of [parse_cc_cedict_line], from [rest]. *)
Definition meanings_of (rest : str) : list str :=
  let meaning_part := strip (re_sub_brackets rest) in
  if startswith meaning_part [SLASH] && endswith meaning_part [SLASH] then
    let meaning_text := slice meaning_part 1 (-1) in
    map strip
      (filter (fun m => truthy (strip m)) (split SLASH None meaning_text))
  else [].

(** [None] is Python's [None]: the line is skipped. *)
Definition parse_cc_cedict_line (line : str) : result (option entry) :=
  if negb (truthy (strip line)) || startswith line [HASH] then Ok None
  else
    let line := strip line in
    let parts := split SPACE (Some 2) line in
    if length parts <? 3 then Ok None
    else
      traditional <- index parts 0 ;;
      simplified <- index parts 1 ;;
      rest <- index parts 2 ;;
      pinyin <- get_pinyin_from_characters traditional ;;
      let meanings := meanings_of rest in
      let is_idiom := (4 <=? len traditional) || (4 <=? len simplified) in
      zhuyin <- get_zhuyin_from_characters traditional ;;
      Ok (Some (mkEntry traditional simplified pinyin zhuyin
                        meanings is_idiom)).

(** The loop of [parse_cc_cedict_file] over the lines of the open file,
    numbered from [line_num].  The state is the list [entries] and the
    warnings printed so far.  A dict with six keys is truthy, so every
    parsed entry is appended. *)
Fixpoint parse_lines (line_num : nat) (lines : list str)
    (entries : list entry) (printed : list warning)
    : list entry * list warning :=
  match lines with
  | [] => (entries, printed)
  | line :: lines' =>
      match parse_cc_cedict_line line with
      | Ok (Some parsed_entry) =>
          parse_lines (S line_num) lines' (entries ++ [parsed_entry]) printed
      | Ok None =>
          parse_lines (S line_num) lines' entries printed
      | Raise e =>
          parse_lines (S line_num) lines' entries (printed ++ [(line_num, e)])
      end
  end.

(** [parse_cc_cedict_file], on the lines that iterating the file gives
    ([enumerate(file, 1)]); opening the file is outside the model. *)
Definition parse_cc_cedict_file (lines : list str)
    : list entry * list warning :=
  parse_lines 1 lines [] [].

End Parser.

(** *** Stand-ins for pypinyin in examples *)

(** Every character is its own reading, for both styles. *)
Definition echo_pinyin (characters : str) (_ : Style)
    : result (list (list str)) :=
  Ok (map (fun c => [[c]]) characters).

(** As [echo_pinyin], but raises on a string that holds [!]. *)
Definition BANG : char := 33%N.

Definition failing_pinyin (characters : str) (style : Style)
    : result (list (list str)) :=
  if existsb (N.eqb BANG) characters then Raise (OracleError (lit "no reading"))
  else echo_pinyin characters style.

(** *** Sample lines

    The headwords of the examples, by code point: U+4E00 (yi, one);
    U+4E00 U+5E06 U+98A8 U+9806 (yi fan feng shun, traditional) and
    U+4E00 U+5E06 U+98CE U+987A (simplified); U+4F60 U+597D (ni hao). *)
Definition YI : str := [0x4E00]%N.
Definition YIFANFENGSHUN_T : str := [0x4E00; 0x5E06; 0x98A8; 0x9806]%N.
Definition YIFANFENGSHUN_S : str := [0x4E00; 0x5E06; 0x98CE; 0x987A]%N.
Definition NIHAO : str := [0x4F60; 0x597D]%N.

Definition line_yi : str :=
  YI ++ lit " " ++ YI ++ lit " [yi4] /one/single/a (article)/".

Definition line_idiom : str :=
  YIFANFENGSHUN_T ++ lit " " ++ YIFANFENGSHUN_S
    ++ lit " [yi1 fan1 feng1 shun4] /smooth sailing/".

Definition line_nihao : str :=
  NIHAO ++ lit " " ++ NIHAO ++ lit " [ni3 hao3] /hello/".

(* ===================================================================== *)
(** ** JSON *)
(* ===================================================================== *)

Module Json.

Definition COMMA : char := 44%N.
Definition COLON : char := 58%N.
Definition LBRACE : char := 123%N.
Definition RBRACE : char := 125%N.

(** *** [json.dump(obj, file, ensure_ascii=False, indent=2)]

    With an indent the encoder is [json.encoder._make_iterencode]; the
    text written to the file is the concatenation of its chunks. *)

Definition hex_digit (n : N) : char :=
  if (n <? 10)%N then (48 + n)%N else (87 + n)%N.

(** [ESCAPE_DCT]: the replacement of a character that [ESCAPE] matches
    (the quote, the backslash and the characters below U+0020); with
    [ensure_ascii=False] every other character is written as it is. *)
Definition escape_char (c : char) : str :=
  if (c =? BACKSLASH)%N then [BACKSLASH; BACKSLASH]
  else if (c =? QUOTE)%N then [BACKSLASH; QUOTE]
  else if (c =? 8)%N then [BACKSLASH; 98%N]
  else if (c =? 12)%N then [BACKSLASH; 102%N]
  else if (c =? 10)%N then [BACKSLASH; 110%N]
  else if (c =? 13)%N then [BACKSLASH; 114%N]
  else if (c =? 9)%N then [BACKSLASH; 116%N]
  else if (c <? 32)%N then
    [BACKSLASH; 117%N; 48%N; 48%N; hex_digit (c / 16); hex_digit (c mod 16)]
  else [c].

(** [encode_basestring(s)] *)
Definition encode_basestring (s : str) : str :=
  QUOTE :: flat_map escape_char s ++ [QUOTE].

(** ['\n' + _indent * _current_indent_level], with [_indent] two spaces *)
Definition newline_indent (level : nat) : str :=
  NEWLINE :: repeat SPACE (2 * level).

(** [_iterencode], [_iterencode_list] and [_iterencode_dict]: an empty list
    or dict is written closed; otherwise each item starts on a line of its
    own, one level deeper, the items are separated by a comma, and the
    closing bracket is on a line of its own at the level of the opening
    one.  A key and its value are separated by [": "]. *)
Fixpoint encode (level : nat) (v : value) {struct v} : str :=
  match v with
  | VNone => lit "null"
  | VBool true => lit "true"
  | VBool false => lit "false"
  | VStr s => encode_basestring s
  | VList [] => lit "[]"
  | VList l =>
      LBRACKET :: newline_indent (S level)
        ++ join (COMMA :: newline_indent (S level))
                (map (encode (S level)) l)
        ++ newline_indent level ++ [RBRACKET]
  | VDict [] => lit "{}"
  | VDict items =>
      LBRACE :: newline_indent (S level)
        ++ join (COMMA :: newline_indent (S level))
                (map (fun kv =>
                        encode_basestring (fst kv) ++ lit ": "
                          ++ encode (S level) (snd kv)) items)
        ++ newline_indent level ++ [RBRACE]
  end.

Definition dumps (v : value) : str := encode 0 v.

(** *** [json.loads(s)]

    The decoder of [json.decoder] and [json.scanner], on the remaining
    input instead of an index into it.  [None] is a [JSONDecodeError], or a
    text with a number literal: [value] has no numbers, and main.py writes
    none. *)

(** [WHITESPACE_STR = ' \t\n\r'] *)
Definition is_ws (c : char) : bool :=
  ((c =? 32) || (c =? 9) || (c =? 10) || (c =? 13))%N.

Fixpoint skip_ws (s : str) : str :=
  match s with
  | [] => []
  | c :: s' => if is_ws c then skip_ws s' else s
  end.

Definition hexval (c : char) : option N :=
  if ((48 <=? c) && (c <=? 57))%N then Some (c - 48)%N
  else if ((97 <=? c) && (c <=? 102))%N then Some (c - 87)%N
  else if ((65 <=? c) && (c <=? 70))%N then Some (c - 55)%N
  else None.

(** The [BACKSLASH] table of [json.decoder] *)
Definition backslash (c : char) : option char :=
  if (c =? QUOTE)%N then Some QUOTE
  else if (c =? BACKSLASH)%N then Some BACKSLASH
  else if (c =? SLASH)%N then Some SLASH
  else if (c =? 98)%N then Some 8%N
  else if (c =? 102)%N then Some 12%N
  else if (c =? 110)%N then Some 10%N
  else if (c =? 114)%N then Some 13%N
  else if (c =? 116)%N then Some 9%N
  else None.

Definition prepend (c : char) (r : option (str * str)) : option (str * str) :=
  match r with
  | Some (content, rest) => Some (c :: content, rest)
  | None => None
  end.

(** A [\u] escape gives a UTF-16 code unit; a high surrogate followed by
    the escape of a low one is the pair of one code point. *)
Definition hex4 (d1 d2 d3 d4 : N) : N :=
  (((d1 * 16 + d2) * 16 + d3) * 16 + d4)%N.

Definition is_high_surrogate (c : N) : bool :=
  ((0xD800 <=? c) && (c <=? 0xDBFF))%N.

Definition is_low_surrogate (c : N) : bool :=
  ((0xDC00 <=? c) && (c <=? 0xDFFF))%N.

Definition join_surrogates (hi lo : N) : char :=
  (0x10000 + ((hi - 0xD800) * 1024 + (lo - 0xDC00)))%N.

(** [scanstring(s, end)] in strict mode, from the character after the
    opening quote: the content of the string and the input after its
    closing quote. *)
Fixpoint scanstring (s : str) : option (str * str) :=
  match s with
  | [] => None
  | c :: s1 =>
      if (c =? QUOTE)%N then Some ([], s1)
      else if (c =? BACKSLASH)%N then
        match s1 with
        | [] => None
        | esc :: s2 =>
            if (esc =? 117)%N then
              match s2 with
              | h1 :: h2 :: h3 :: h4 :: s3 =>
                  match hexval h1, hexval h2, hexval h3, hexval h4 with
                  | Some d1, Some d2, Some d3, Some d4 =>
                      let uni := hex4 d1 d2 d3 d4 in
                      if is_high_surrogate uni then
                        match s3 with
                        | b :: u :: s4 =>
                            if ((b =? BACKSLASH) && (u =? 117))%N then
                              match s4 with
                              | g1 :: g2 :: g3 :: g4 :: s5 =>
                                  match hexval g1, hexval g2,
                                        hexval g3, hexval g4 with
                                  | Some e1, Some e2, Some e3, Some e4 =>
                                      let uni2 := hex4 e1 e2 e3 e4 in
                                      if is_low_surrogate uni2 then
                                        prepend (join_surrogates uni uni2)
                                                (scanstring s5)
                                      else prepend uni (scanstring s3)
                                  | _, _, _, _ => None
                                  end
                              | _ => None
                              end
                            else prepend uni (scanstring s3)
                        | _ => prepend uni (scanstring s3)
                        end
                      else prepend uni (scanstring s3)
                  | _, _, _, _ => None
                  end
              | _ => None
              end
            else
              match backslash esc with
              | Some ch => prepend ch (scanstring s2)
              | None => None
              end
        end
      else if (c <? 32)%N then None
      else prepend c (scanstring s1)
  end.

(** [d[k] = v] on a dict: a key that is there keeps its place. *)
Fixpoint dict_set (d : list (str * value)) (k : str) (v : value)
  : list (str * value) :=
  match d with
  | [] => [(k, v)]
  | (k', v') :: d' =>
      if str_eqb k' k then (k', v) :: d' else (k', v') :: dict_set d' k v
  end.

(** [dict(pairs)] *)
Definition dict_of_pairs (pairs : list (str * value)) : list (str * value) :=
  fold_left (fun d kv => dict_set d (fst kv) (snd kv)) pairs [].

(** [scan_once], with the loops of [JSONArray] and [JSONObject].  The
    recursion follows the input, so it takes fuel; [loads] gives it the
    length of the text, which is enough. *)
Fixpoint scan_once (fuel : nat) (s : str) {struct fuel}
  : option (value * str) :=
  match fuel with
  | O => None
  | S n =>
      match s with
      | [] => None
      | c :: s1 =>
          if (c =? QUOTE)%N then
            match scanstring s1 with
            | Some (content, rest) => Some (VStr content, rest)
            | None => None
            end
          else if (c =? LBRACE)%N then
            match skip_ws s1 with
            | d :: s2 =>
                if (d =? RBRACE)%N then Some (VDict [], s2)
                else if (d =? QUOTE)%N then
                  match object_loop n s2 with
                  | Some (pairs, rest) => Some (VDict (dict_of_pairs pairs), rest)
                  | None => None
                  end
                else None
            | [] => None
            end
          else if (c =? LBRACKET)%N then
            match skip_ws s1 with
            | d :: s2 =>
                if (d =? RBRACKET)%N then Some (VList [], s2)
                else
                  match array_loop n (d :: s2) with
                  | Some (values, rest) => Some (VList values, rest)
                  | None => None
                  end
            | [] => None
            end
          else if startswith s (lit "null") then Some (VNone, skipn 4 s)
          else if startswith s (lit "true") then Some (VBool true, skipn 4 s)
          else if startswith s (lit "false") then Some (VBool false, skipn 5 s)
          else None
      end
  end

(** The [while True] of [JSONArray], at the start of a value. *)
with array_loop (fuel : nat) (s : str) {struct fuel}
  : option (list value * str) :=
  match fuel with
  | O => None
  | S n =>
      match scan_once n s with
      | Some (v, r) =>
          match skip_ws r with
          | c :: r1 =>
              if (c =? RBRACKET)%N then Some ([v], r1)
              else if (c =? COMMA)%N then
                match array_loop n (skip_ws r1) with
                | Some (values, rest) => Some (v :: values, rest)
                | None => None
                end
              else None
          | [] => None
          end
      | None => None
      end
  end

(** The [while True] of [JSONObject], after the opening quote of a key. *)
with object_loop (fuel : nat) (s : str) {struct fuel}
  : option (list (str * value) * str) :=
  match fuel with
  | O => None
  | S n =>
      match scanstring s with
      | Some (key, r) =>
          match skip_ws r with
          | c :: r1 =>
              if (c =? COLON)%N then
                match scan_once n (skip_ws r1) with
                | Some (v, r2) =>
                    match skip_ws r2 with
                    | d :: r3 =>
                        if (d =? RBRACE)%N then Some ([(key, v)], r3)
                        else if (d =? COMMA)%N then
                          match skip_ws r3 with
                          | q :: r4 =>
                              if (q =? QUOTE)%N then
                                match object_loop n r4 with
                                | Some (pairs, rest) =>
                                    Some ((key, v) :: pairs, rest)
                                | None => None
                                end
                              else None
                          | [] => None
                          end
                        else None
                    | [] => None
                    end
                | None => None
                end
              else None
          | [] => None
          end
      | None => None
      end
  end.

(** [json.loads(s)]: a text that starts with the byte order mark is
    refused; whitespace may surround the value, and nothing else may
    follow it. *)
Definition loads (s : str) : option value :=
  if startswith s [0xFEFF%N] then None
  else
    match scan_once (S (length s)) (skip_ws s) with
    | Some (v, rest) =>
        match skip_ws rest with
        | [] => Some v
        | _ :: _ => None
        end
    | None => None
    end.

(** The characters a JSON value of [value] can start with. *)
Definition value_start (c : char) : bool :=
  ((c =? QUOTE) || (c =? LBRACE) || (c =? LBRACKET)
   || (c =? 110) || (c =? 116) || (c =? 102))%N.

(** The text of one item of a dict, one level below [level]. *)
Definition item_text (level : nat) (kv : str * value) : str :=
  encode_basestring (fst kv) ++ lit ": " ++ encode (S level) (snd kv).

(** The separator of the items of a list or dict one level below
    [level]. *)
Definition separator (level : nat) : str :=
  COMMA :: newline_indent (S level).

(** The decoder reads the text of [x], written one level below [level],
    back as [x], and leaves what follows it. *)
Definition reads_back (level : nat) (x : value) : Prop :=
  forall fuel tail,
    length (encode (S level) x) <= fuel ->
    scan_once fuel (encode (S level) x ++ tail) = Some (x, tail).

(** A Python dict has each key once. *)
Fixpoint well_formed (v : value) : Prop :=
  match v with
  | VList l =>
      (fix all (l : list value) : Prop :=
         match l with
         | [] => True
         | x :: l' => well_formed x /\ all l'
         end) l
  | VDict items =>
      NoDup (map fst items)
      /\ (fix all (items : list (str * value)) : Prop :=
            match items with
            | [] => True
            | kv :: items' => well_formed (snd kv) /\ all items'
            end) items
  | _ => True
  end.

End Json.

(** [save_to_json]: the text that [json.dump] writes to the output file. *)
Definition save_to_json (entries : list entry) : str :=
  Json.dumps (VList (map entry_value entries)).

(* ===================================================================== *)
(** ** The specification's notions *)
(* ===================================================================== *)

(** pypinyin never raises and returns what it documents: for each syllable
    a list of readings that is not empty. *)
Definition pypinyin_total
    (pypinyin : str -> Style -> result (list (list str))) : Prop :=
  forall characters style,
    exists readings,
      pypinyin characters style = Ok readings
      /\ Forall (fun item => item <> []) readings.

(** No character of the string is whitespace. *)
Definition no_whitespace (s : str) : Prop :=
  forallb (fun c => negb (isspace c)) s = true.

(** The gloss section in the words of the specification: it is well formed
    when it starts and ends with a slash; its glosses are found by
    stripping the leading and the trailing slash, splitting at slashes,
    trimming each piece and keeping the pieces that are not empty. *)
Definition starts_and_ends_with_slash (gloss : str) : Prop :=
  (exists u, gloss = SLASH :: u) /\ (exists v, gloss = v ++ [SLASH]).

Definition spec_strip_slashes (gloss : str) : str := removelast (tl gloss).

Definition spec_glosses (gloss : str) : list str :=
  filter (fun piece => truthy piece)
         (map strip (split SLASH None (spec_strip_slashes gloss))).

(** What the driver is to return: the entries of the lines that parse, in
    order, and one warning for each line on which the parser raises, with
    the number of that line. *)
Definition entries_of
    (pypinyin : str -> Style -> result (list (list str)))
    (lines : list str) : list entry :=
  flat_map (fun line =>
              match parse_cc_cedict_line pypinyin line with
              | Ok (Some e) => [e]
              | _ => []
              end) lines.

Fixpoint warnings_from
    (pypinyin : str -> Style -> result (list (list str)))
    (line_num : nat) (lines : list str) : list warning :=
  match lines with
  | [] => []
  | line :: lines' =>
      match parse_cc_cedict_line pypinyin line with
      | Raise e => (line_num, e) :: warnings_from pypinyin (S line_num) lines'
      | Ok _ => warnings_from pypinyin (S line_num) lines'
      end
  end.

(** *** Sample entries and lines *)

Definition entry_yi : entry :=
  mkEntry YI YI YI YI [lit "one"; lit "single"; lit "a (article)"] false.

Definition entry_idiom : entry :=
  mkEntry YIFANFENGSHUN_T YIFANFENGSHUN_S
          [0x4E00; 32; 0x5E06; 32; 0x98A8; 32; 0x9806]%N
          [0x4E00; 32; 0x5E06; 32; 0x98A8; 32; 0x9806]%N
          [lit "smooth sailing"] true.

Definition entry_nihao : entry :=
  mkEntry NIHAO NIHAO [0x4F60; 32; 0x597D]%N [0x4F60; 32; 0x597D]%N
          [lit "hello"] false.

Definition line_yi_variant : str :=
  YI ++ lit " x [er4] /two/".

Definition four_lines : list str :=
  [lit "a b /x/"; lit "c! d /y/"; lit "e f /z/"; lit "g h /w/"].

(* ===================================================================== *)
(** ** The program in its environment *)
(* ===================================================================== *)

Module IO.

(** What a call into the file system can raise: [FileNotFoundError], which
    [parse_cc_cedict_file] tells apart, and any other [Exception]
    ([PermissionError], [UnicodeDecodeError], ...), with its text. *)
Inductive io_error : Type :=
| FileNotFoundError
| OtherException (msg : str).

(** The answers of the environment to the calls of one run:
    - [input_exists]: [Path(args.input_dict_path).exists()];
    - [output_dir_exists]: [output_dir.exists()];
    - [mkdir_fault]: what [output_dir.mkdir(parents=True, exist_ok=True)]
      raises, if it raises;
    - [open_fault]: what [open(input_path, 'r', encoding='utf-8')] raises;
    - [file_lines] and [read_fault]: the lines that iterating over the
      file yields, and what the iteration raises after them, if it does
      not end (a decoding error, a read error);
    - [create_fault]: what [open(output_path, 'w', encoding='utf-8')]
      raises;
    - [write_fault]: what writing the given text and closing the file
      raises (an encoding error of the text, a full disk). *)
Record world : Type := mkWorld {
  input_exists : bool;
  output_dir_exists : bool;
  mkdir_fault : option io_error;
  open_fault : option io_error;
  file_lines : list str;
  read_fault : option io_error;
  create_fault : option io_error;
  write_fault : str -> option io_error
}.

(** The lines that the program prints, with the values their f-strings
    hold. *)
Inductive message : Type :=
| LineWarning (line_num : nat) (e : exception)
    (* Warning: Error parsing line {line_num}: {e} *)
| InputNotFound (input_path : str)
    (* Error: Input file '{input_path}' not found. *)
| ErrorReading (e : io_error)
    (* Error reading file: {e} *)
| Saved (n : nat) (output_path : str)
    (* Successfully saved {len(entries)} entries to '{output_path}' *)
| ErrorWriting (e : io_error)
    (* Error writing to output file: {e} *)
| InputMissing (input_dict_path : str)
    (* Error: Input file '{args.input_dict_path}' does not exist. *)
| Parsing (input_dict_path : str)
    (* Parsing CC-CEDICT file: {args.input_dict_path} *)
| NoEntries
    (* Warning: No valid entries found in the input file. *)
| Found (n : nat).
    (* Found {len(entries)} entries *)

(** The output file: not opened; opened for writing (so emptied) and not
    written to the end; or holding the whole text. *)
Inductive file_state : Type :=
| Untouched
| Incomplete
| Complete (text : str).

(** What a run has done so far. *)
Record state : Type := mkState {
  stdout : list message;
  made_dir : bool;
  output_file : file_state
}.

Definition initial : state := mkState [] false Untouched.

(** How a piece of the program ends: it returns, it calls
    [sys.exit(code)] ([SystemExit] is no [Exception], so no handler of
    main.py catches it), or an exception leaves it that nothing
    catches. *)
Inductive outcome (A : Type) : Type :=
| Return (a : A)
| SysExit (code : nat)
| Uncaught (e : io_error).

Arguments Return {A} a.
Arguments SysExit {A} code.
Arguments Uncaught {A} e.

Definition io (A : Type) : Type := state -> outcome A * state.

Definition ret {A : Type} (a : A) : io A := fun st => (Return a, st).

Definition io_bind {A B : Type} (c : io A) (k : A -> io B) : io B :=
  fun st =>
    match c st with
    | (Return a, st') => k a st'
    | (SysExit code, st') => (SysExit code, st')
    | (Uncaught e, st') => (Uncaught e, st')
    end.

Notation "x <~ c ;; k" := (io_bind c (fun x => k))
  (at level 61, c at next level, right associativity).

Notation "c >> k" := (io_bind c (fun _ => k))
  (at level 61, right associativity).

Definition print (m : message) : io unit :=
  fun st => (Return tt, mkState (stdout st ++ [m]) (made_dir st)
                                (output_file st)).

Fixpoint print_all (ms : list message) : io unit :=
  match ms with
  | [] => ret tt
  | m :: ms' => print m >> print_all ms'
  end.

(** A state with more lines printed. *)
Definition with_stdout (ms : list message) (st : state) : state :=
  mkState (stdout st ++ ms) (made_dir st) (output_file st).

Definition sys_exit {A : Type} (code : nat) : io A :=
  fun st => (SysExit code, st).

Definition raise {A : Type} (e : io_error) : io A :=
  fun st => (Uncaught e, st).

Definition set_made_dir : io unit :=
  fun st => (Return tt, mkState (stdout st) true (output_file st)).

Definition set_output_file (f : file_state) : io unit :=
  fun st => (Return tt, mkState (stdout st) (made_dir st) f).

Section Program.

Variable pypinyin : str -> Style -> result (list (list str)).
Variable w : world.

(** The two handlers of the outer [try] of [parse_cc_cedict_file]. *)
Definition read_handlers {A : Type} (input_path : str) (e : io_error)
  : io A :=
  match e with
  | FileNotFoundError => print (InputNotFound input_path) >> sys_exit 1
  | OtherException _ => print (ErrorReading e) >> sys_exit 1
  end.

(** [parse_cc_cedict_file(input_path)], whole: the file is opened, the
    loop over its lines prints its warnings, and a fault of [open] or of
    the iteration goes to the handlers of the outer [try]. *)
Definition parse_cc_cedict_file (input_path : str) : io (list entry) :=
  match open_fault w with
  | Some e => read_handlers input_path e
  | None =>
      let parsed := parse_cc_cedict_file pypinyin (file_lines w) in
      print_all (map (fun lw => LineWarning (fst lw) (snd lw)) (snd parsed))
      >>
      match read_fault w with
      | Some e => read_handlers input_path e
      | None => ret (fst parsed)
      end
  end.

(** [save_to_json(entries, output_path)], whole. *)
Definition save_to_json (entries : list entry) (output_path : str)
  : io unit :=
  match create_fault w with
  | Some e => print (ErrorWriting e) >> sys_exit 1
  | None =>
      let text := save_to_json entries in
      match write_fault w text with
      | Some e =>
          set_output_file Incomplete >> print (ErrorWriting e) >> sys_exit 1
      | None =>
          set_output_file (Complete text)
          >> print (Saved (length entries) output_path)
      end
  end.

(** [main()], after [parser.parse_args()] has given the two paths
    (argparse is outside the model).  A [Path] is always truthy, so the
    test [output_dir and not output_dir.exists()] is the test that the
    directory does not exist; nothing catches what [mkdir] raises. *)
Definition main (input_dict_path output_path : str) : io unit :=
  (if negb (input_exists w)
   then print (InputMissing input_dict_path) >> sys_exit 1
   else ret tt)
  >>
  (if negb (output_dir_exists w)
   then match mkdir_fault w with
        | Some e => raise e
        | None => set_made_dir
        end
   else ret tt)
  >>
  print (Parsing input_dict_path)
  >>
  entries <~ parse_cc_cedict_file input_dict_path ;;
  (if negb (truthy entries)
   then print NoEntries >> sys_exit 1
   else ret tt)
  >>
  print (Found (length entries))
  >>
  save_to_json entries output_path.

End Program.

(** A world in which every call succeeds. *)
Definition quiet_world (lines : list str) : world :=
  mkWorld true true None None lines None None (fun _ => None).

End IO.

(** *** Sample environments *)

(** The input is there, and reading it fails after four lines. *)
Definition world_with_read_fault : IO.world :=
  IO.mkWorld true true None None four_lines
             (Some (IO.OtherException (lit "invalid start byte")))
             None (fun _ => None).

(** The input is there and holds a comment and a blank line. *)
Definition world_of_comments : IO.world :=
  IO.quiet_world [lit "# CC-CEDICT"; lit "   "].

(** The output directory is missing and cannot be made. *)
Definition world_without_directory : IO.world :=
  IO.mkWorld true false (Some (IO.OtherException (lit "permission denied")))
             None four_lines None None (fun _ => None).

(* ===================================================================== *)
(** ** Notions for the further properties *)
(* ===================================================================== *)

(** A CC-CEDICT line written out from its parts: the two headwords, the
    romanization between brackets and the glosses between slashes. *)
Definition cedict_line (T S P : str) (glosses : list str) : str :=
  T ++ SPACE :: S ++ SPACE :: LBRACKET :: P
    ++ RBRACKET :: SPACE :: SLASH :: join [SLASH] glosses ++ [SLASH].

(** A gloss as the format has it: not empty, no whitespace at either end,
    no slash and no opening bracket. *)
Definition clean_gloss (g : str) : Prop :=
  g <> [] /\ strip g = g /\ ~ In SLASH g /\ ~ In LBRACKET g.

(** The text holds a bracketed span that [re.sub] would remove: an opening
    bracket with a closing one after it and no newline between them. *)
Definition has_span (s : str) : Prop :=
  exists a u, s = a ++ LBRACKET :: u /\ closes u = true.

(** The readings that the transliteration functions keep: the first of
    each item, when it is not empty. *)
Definition kept_readings (readings : list (list str)) : list str :=
  filter (fun reading => truthy reading) (map (hd []) readings).

(** The lines that the parser skips. *)
Definition skipped_of
    (pypinyin : str -> Style -> result (list (list str)))
    (lines : list str) : list str :=
  filter (fun line =>
            match parse_cc_cedict_line pypinyin line with
            | Ok None => true
            | _ => false
            end) lines.

(** A warning of a chunk of lines that starts [k] lines into the file. *)
Definition shift_warning (k : nat) (lw : warning) : warning :=
  (k + fst lw, snd lw).

(** A character that [json.dump] writes as it is: not a control
    character, not the quote, not the backslash. *)
Definition plain_char (c : char) : Prop :=
  (32 <= c)%N /\ c <> QUOTE /\ c <> BACKSLASH.

(** The characters of the JSON syntax that [json.dump] writes around the
    strings: brackets, braces, comma, colon, space, the letters of
    [null], [true] and [false], the quote and the newline. *)
Definition syntax_chars : str :=
  lit "[]{},: nultrefas" ++ [QUOTE; NEWLINE].

(** The strings of an entry: its four text fields and its glosses. *)
Definition entry_strings (e : entry) : list str :=
  traditional e :: simplified e :: pinyin e :: zhuyin e :: meaning e.

(** A property of every string in a value, keys included. *)
Fixpoint all_strings (Q : str -> Prop) (v : value) : Prop :=
  match v with
  | VStr s => Q s
  | VList l =>
      (fix all (l : list value) : Prop :=
         match l with
         | [] => True
         | x :: l' => all_strings Q x /\ all l'
         end) l
  | VDict items =>
      (fix all (items : list (str * value)) : Prop :=
         match items with
         | [] => True
         | kv :: items' =>
             (Q (fst kv) /\ all_strings Q (snd kv)) /\ all items'
         end) items
  | _ => True
  end.

(* ===================================================================== *)
(** ** Facts about the string operations *)
(* ===================================================================== *)

(** Lengths and counts over strings: [str] and [char] are unfolded so that [lia] sees
    one type of list. *)
Ltac length_lia := unfold str, char in *; lia.

Module PyStrFacts.

Lemma forallb_rev (A : Type) (f : A -> bool) (l : list A) :
  forallb f (rev l) = forallb f l.
Proof.
  induction l as [|x l IH]; simpl; [reflexivity|].
  rewrite forallb_app, IH. simpl. rewrite andb_true_r. apply andb_comm.
Qed.

(** *** strip *)

Lemma lstrip_split (s : str) :
  exists w, s = w ++ lstrip s /\ forallb isspace w = true.
Proof.
  induction s as [|c s IH]; simpl.
  - exists []. split; reflexivity.
  - destruct (isspace c) eqn:E.
    + destruct IH as (w & Hw & Hall). exists (c :: w). simpl.
      rewrite E, Hall. split; [f_equal; exact Hw | reflexivity].
    + exists []. split; reflexivity.
Qed.

Lemma lstrip_head (s : str) (c : char) (s' : str) :
  lstrip s = c :: s' -> isspace c = false.
Proof.
  induction s as [|a s IH]; simpl; [discriminate|].
  destruct (isspace a) eqn:E; [exact IH|].
  intros H. injection H as H1 _. subst. exact E.
Qed.

Lemma lstrip_blank (s : str) : forallb isspace s = true -> lstrip s = [].
Proof.
  induction s as [|a s IH]; simpl; [reflexivity|].
  destruct (isspace a); simpl; [exact IH | discriminate].
Qed.

Lemma lstrip_empty_blank (s : str) : lstrip s = [] -> forallb isspace s = true.
Proof.
  induction s as [|a s IH]; simpl; [reflexivity|].
  destruct (isspace a); simpl; [exact IH | discriminate].
Qed.

Lemma lstrip_blank_app (w s : str) :
  forallb isspace w = true -> lstrip (w ++ s) = lstrip s.
Proof.
  induction w as [|a w IH]; simpl; [reflexivity|].
  destruct (isspace a); simpl; [exact IH | discriminate].
Qed.

Lemma lstrip_app (s w : str) : lstrip s <> [] -> lstrip (s ++ w) = lstrip s ++ w.
Proof.
  induction s as [|a s IH]; simpl; [congruence|].
  destruct (isspace a); [exact IH | reflexivity].
Qed.

Lemma rstrip_split (s : str) :
  exists w, s = rstrip s ++ w /\ forallb isspace w = true.
Proof.
  destruct (lstrip_split (rev s)) as (w & Hw & Hall).
  exists (rev w). split.
  - unfold rstrip. rewrite <- rev_app_distr, <- Hw. symmetry. apply rev_involutive.
  - rewrite forallb_rev. exact Hall.
Qed.

Lemma rstrip_blank_app (s w : str) :
  forallb isspace w = true -> rstrip (s ++ w) = rstrip s.
Proof.
  intros H. unfold rstrip. rewrite rev_app_distr, lstrip_blank_app; [reflexivity|].
  rewrite forallb_rev. exact H.
Qed.

Lemma strip_split (s : str) :
  exists w1 w2,
    s = w1 ++ strip s ++ w2
    /\ forallb isspace w1 = true /\ forallb isspace w2 = true.
Proof.
  destruct (lstrip_split s) as (w1 & H1 & A1).
  destruct (rstrip_split (lstrip s)) as (w2 & H2 & A2).
  exists w1, w2. unfold strip. rewrite <- H2. auto.
Qed.

Lemma strip_head (s : str) (c : char) (s' : str) :
  strip s = c :: s' -> isspace c = false.
Proof.
  intros H. destruct (rstrip_split (lstrip s)) as (w & Hw & _).
  unfold strip in H. rewrite H in Hw. simpl in Hw.
  exact (lstrip_head _ _ _ Hw).
Qed.

Lemma strip_last (s u : str) (c : char) :
  strip s = u ++ [c] -> isspace c = false.
Proof.
  unfold strip, rstrip. intros H.
  apply (f_equal (@rev char)) in H.
  rewrite rev_involutive, rev_app_distr in H. simpl in H.
  exact (lstrip_head _ _ _ H).
Qed.

Lemma strip_blank (s : str) : forallb isspace s = true -> strip s = [].
Proof. intros H. unfold strip. rewrite (lstrip_blank _ H). reflexivity. Qed.

Lemma strip_blank_app (s w : str) :
  forallb isspace w = true -> strip (s ++ w) = strip s.
Proof.
  intros H. unfold strip.
  destruct (lstrip s) as [|a t] eqn:E.
  - rewrite lstrip_blank; [reflexivity|].
    rewrite forallb_app, H, (lstrip_empty_blank _ E). reflexivity.
  - rewrite lstrip_app by congruence. rewrite E. apply rstrip_blank_app, H.
Qed.

(** *** split and join *)

Lemma split_nonempty (sep : char) (m : option nat) (s : str) :
  split sep m s <> [].
Proof.
  destruct s as [|c s]; simpl; [discriminate|].
  destruct (c =? sep)%N, m as [[|n]|]; try discriminate;
    destruct (split sep _ s); discriminate.
Qed.

Lemma join_cons (sep p : str) (ps : list str) :
  ps <> [] -> join sep (p :: ps) = p ++ sep ++ join sep ps.
Proof. destruct ps; [congruence | reflexivity]. Qed.

Lemma join_cons_piece (sep : str) (c : char) (ps : list str) :
  ps <> [] -> join sep (cons_piece c ps) = c :: join sep ps.
Proof.
  destruct ps as [|p [|q ps]]; [congruence | reflexivity | reflexivity].
Qed.

(** Joining the pieces with the separator gives the string back. *)
Lemma split_join (sep : char) (m : option nat) (s : str) :
  join [sep] (split sep m s) = s.
Proof.
  revert m. induction s as [|c s IH]; intros m; [reflexivity|].
  simpl. destruct (N.eqb_spec c sep) as [->|Hc].
  - destruct m as [[|n]|].
    + rewrite join_cons_piece by apply split_nonempty. now rewrite IH.
    + rewrite join_cons by apply split_nonempty. now rewrite IH.
    + rewrite join_cons by apply split_nonempty. now rewrite IH.
  - rewrite join_cons_piece by apply split_nonempty. now rewrite IH.
Qed.

Lemma length_cons_piece (c : char) (ps : list str) :
  ps <> [] -> length (cons_piece c ps) = length ps.
Proof. destruct ps; [congruence | reflexivity]. Qed.

(** [maxsplit] bounds the number of pieces. *)
Lemma split_length_le (sep : char) (n : nat) (s : str) :
  length (split sep (Some n) s) <= S n.
Proof.
  revert n. induction s as [|c s IH]; intros n; simpl; [lia|].
  destruct (c =? sep)%N, n as [|n];
    rewrite ?length_cons_piece by apply split_nonempty;
    simpl; try apply IH.
  specialize (IH n). lia.
Qed.

Lemma split_zero (sep : char) (s : str) : split sep (Some 0) s = [s].
Proof.
  induction s as [|c s IH]; [reflexivity|].
  simpl. rewrite IH. destruct (c =? sep)%N; reflexivity.
Qed.

Lemma split_no_sep (sep : char) (m : option nat) (s : str) :
  ~ In sep s -> split sep m s = [s].
Proof.
  induction s as [|c s IH]; intros H; [reflexivity|].
  simpl. destruct (N.eqb_spec c sep) as [->|Hc].
  - exfalso. apply H. now left.
  - rewrite IH; [reflexivity|]. intros Hin. apply H. now right.
Qed.

Lemma split_app_sep (sep : char) (n : nat) (a t : str) :
  ~ In sep a ->
  split sep (Some (S n)) (a ++ sep :: t) = a :: split sep (Some n) t.
Proof.
  induction a as [|c a IH]; intros H; simpl.
  - now rewrite N.eqb_refl.
  - destruct (N.eqb_spec c sep) as [->|Hc].
    + exfalso. apply H. now left.
    + rewrite IH; [reflexivity|]. intros Hin. apply H. now right.
Qed.

Lemma split_app_sep_all (sep : char) (a t : str) :
  ~ In sep a ->
  split sep None (a ++ sep :: t) = a :: split sep None t.
Proof.
  induction a as [|c a IH]; intros H; simpl.
  - now rewrite N.eqb_refl.
  - destruct (N.eqb_spec c sep) as [->|Hc].
    + exfalso. apply H. now left.
    + rewrite IH; [reflexivity|]. intros Hin. apply H. now right.
Qed.

(** The first piece of a split that has a second piece ends at the first
    separator. *)
Lemma split_cons_inv (sep : char) (n : nat) (s a b : str) (rest : list str) :
  split sep (Some (S n)) s = a :: b :: rest ->
  exists t, s = a ++ sep :: t /\ ~ In sep a
            /\ split sep (Some n) t = b :: rest.
Proof.
  revert a. induction s as [|c s IH]; intros a; simpl; [discriminate|].
  destruct (N.eqb_spec c sep) as [->|Hc].
  - intros H. injection H as <- H. exists s. auto.
  - destruct (split sep (Some (S n)) s) as [|p ps] eqn:E; simpl;
      [discriminate|].
    intros H. injection H as <- ->.
    destruct (IH p eq_refl) as (t & -> & Hp & Ht).
    exists t. split; [reflexivity|]. split; [|exact Ht].
    intros [Heq|Hin]; [congruence | exact (Hp Hin)].
Qed.

Lemma split_three_inv (sep : char) (s a b c : str) :
  split sep (Some 2) s = [a; b; c] ->
  s = a ++ sep :: b ++ sep :: c /\ ~ In sep a /\ ~ In sep b.
Proof.
  intros H.
  destruct (split_cons_inv _ _ _ _ _ _ H) as (t & -> & Ha & Ht).
  destruct (split_cons_inv _ _ _ _ _ _ Ht) as (u & -> & Hb & Hu).
  rewrite split_zero in Hu. injection Hu as ->. auto.
Qed.

Lemma split_three (sep : char) (a b c : str) :
  ~ In sep a -> ~ In sep b ->
  split sep (Some 2) (a ++ sep :: b ++ sep :: c) = [a; b; c].
Proof.
  intros Ha Hb. rewrite split_app_sep by exact Ha.
  rewrite split_app_sep by exact Hb. now rewrite split_zero.
Qed.

(** A string with at most one separator has at most two pieces. *)
Lemma split_length_count (sep : char) (m : option nat) (s : str) :
  length (split sep m s) <= S (count_occ N.eq_dec s sep).
Proof.
  revert m. induction s as [|c s IH]; intros m; simpl; [lia|].
  destruct (N.eq_dec c sep) as [->|Hc].
  - rewrite N.eqb_refl.
    destruct m as [[|n]|];
      rewrite ?length_cons_piece by apply split_nonempty; simpl.
    + specialize (IH (Some 0)). lia.
    + specialize (IH (Some n)). lia.
    + specialize (IH None). lia.
  - destruct (N.eqb_spec c sep) as [->|_]; [congruence|].
    rewrite length_cons_piece by apply split_nonempty. apply IH.
Qed.

End PyStrFacts.

Import PyStrFacts.

(* ===================================================================== *)
(** ** Facts about the line parser *)
(* ===================================================================== *)

Section ParserFacts.

Variable pypinyin : str -> Style -> result (list (list str)).

Lemma bind_ok (A B : Type) (c : result A) (k : A -> result B) (b : B) :
  bind c k = Ok b -> exists a, c = Ok a /\ k a = Ok b.
Proof. destruct c as [a|e]; simpl; [eauto | discriminate]. Qed.

(** The three parts of a line that is neither skipped nor too short. *)
Lemma parts_three (line : str) :
  (length (split SPACE (Some 2) (strip line)) <? 3) = false ->
  exists t s rest, split SPACE (Some 2) (strip line) = [t; s; rest].
Proof.
  intros H. apply Nat.ltb_ge in H.
  pose proof (split_length_le SPACE 2 (strip line)) as Hle.
  destruct (split SPACE (Some 2) (strip line)) as [|t [|s [|rest [|x l]]]];
    simpl in *; try lia.
  now exists t, s, rest.
Qed.

(** What the parser does on a line that has its three parts. *)
Lemma parse_three (line t s rest : str) :
  strip line <> [] ->
  startswith line [HASH] = false ->
  split SPACE (Some 2) (strip line) = [t; s; rest] ->
  parse_cc_cedict_line pypinyin line =
    (p <- get_pinyin_from_characters pypinyin t ;;
     z <- get_zhuyin_from_characters pypinyin t ;;
     Ok (Some (mkEntry t s p z (meanings_of rest)
                       ((4 <=? len t) || (4 <=? len s))))).
Proof.
  intros Hne Hhash Hparts. unfold parse_cc_cedict_line.
  destruct (strip line) as [|c l] eqn:E; [congruence|].
  simpl truthy. rewrite Hhash. simpl negb. simpl orb. cbv iota.
  rewrite Hparts. reflexivity.
Qed.

(** Every entry comes from a line with three parts, and each field is
    computed from them. *)
Lemma parse_entry_inv (line : str) (e : entry) :
  parse_cc_cedict_line pypinyin line = Ok (Some e) ->
  exists rest,
    strip line <> []
    /\ startswith line [HASH] = false
    /\ split SPACE (Some 2) (strip line)
       = [traditional e; simplified e; rest]
    /\ get_pinyin_from_characters pypinyin (traditional e) = Ok (pinyin e)
    /\ get_zhuyin_from_characters pypinyin (traditional e) = Ok (zhuyin e)
    /\ meaning e = meanings_of rest
    /\ is_idiom e
       = (4 <=? len (traditional e)) || (4 <=? len (simplified e)).
Proof.
  intros H.
  assert (Hne : strip line <> []).
  { intros E. unfold parse_cc_cedict_line in H. rewrite E in H.
    simpl in H. discriminate. }
  assert (Hhash : startswith line [HASH] = false).
  { destruct (startswith line [HASH]) eqn:E; [|reflexivity].
    unfold parse_cc_cedict_line in H. rewrite E, orb_true_r in H.
    discriminate. }
  destruct (length (split SPACE (Some 2) (strip line)) <? 3) eqn:Hlen.
  - unfold parse_cc_cedict_line in H.
    destruct (strip line); [congruence|].
    simpl truthy in H. rewrite Hhash, Hlen in H. discriminate.
  - destruct (parts_three line Hlen) as (t & s & rest & Hparts).
    rewrite (parse_three line t s rest Hne Hhash Hparts) in H.
    apply bind_ok in H. destruct H as (p & Hp & H).
    apply bind_ok in H. destruct H as (z & Hz & H).
    injection H as <-. simpl. exists rest. repeat split; assumption.
Qed.

End ParserFacts.

(* ===================================================================== *)
(** ** Skipped lines *)
(* ===================================================================== *)

(** C3 (as amended).  A line that is empty after trimming, or whose raw
    text begins with [#], is skipped: the parser returns [None] and does
    not raise, whatever pypinyin does.  The comment marker is looked for
    in the line as given, before any trimming. *)
Theorem skip_blank_or_comment
    (pypinyin : str -> Style -> result (list (list str))) (line : str) :
  strip line = [] \/ startswith line [HASH] = true ->
  parse_cc_cedict_line pypinyin line = Ok None.
Proof.
  intros [H|H]; unfold parse_cc_cedict_line.
  - rewrite H. reflexivity.
  - rewrite H, orb_true_r. reflexivity.
Qed.

(** The three lines of the specification: [""], ["   "], ["# comment"]. *)
Lemma skip_blank_or_comment_witness :
  parse_cc_cedict_line echo_pinyin (lit "") = Ok None
  /\ parse_cc_cedict_line echo_pinyin (lit "   ") = Ok None
  /\ parse_cc_cedict_line echo_pinyin (lit "# comment") = Ok None.
Proof.
  split; [|split].
  - apply (skip_blank_or_comment echo_pinyin (lit "")). left. reflexivity.
  - apply (skip_blank_or_comment echo_pinyin (lit "   ")). left. reflexivity.
  - apply (skip_blank_or_comment echo_pinyin (lit "# comment")).
    right. reflexivity.
Defined.

(** C3 as stated fails: after trimming, the line [" # a b"] begins with
    [#], and the parser returns an entry whose traditional headword is
    [#]. *)
Lemma indented_comment_is_parsed :
  startswith (strip (lit " # a b")) [HASH] = true
  /\ parse_cc_cedict_line echo_pinyin (lit " # a b")
     = Ok (Some (mkEntry (lit "#") (lit "a") (lit "#") (lit "#") [] false)).
Proof. split; reflexivity. Qed.

(* ===================================================================== *)
(** ** Idiom classification *)
(* ===================================================================== *)

(** C6.  For every entry the parser produces, [is_idiom] is true exactly
    when the traditional or the simplified headword has at least four
    code points. *)
Theorem is_idiom_iff_four_code_points
    (pypinyin : str -> Style -> result (list (list str)))
    (line : str) (e : entry) :
  parse_cc_cedict_line pypinyin line = Ok (Some e) ->
  (is_idiom e = true <-> 4 <= len (traditional e) \/ 4 <= len (simplified e)).
Proof.
  intros H. destruct (parse_entry_inv _ _ _ H) as (rest & _ & _ & _ & _ & _ & _ & Hi).
  rewrite Hi, orb_true_iff, !Nat.leb_le. reflexivity.
Qed.

(** The four-character headword of the specification is an idiom. *)
Lemma is_idiom_iff_four_code_points_witness :
  parse_cc_cedict_line echo_pinyin line_idiom = Ok (Some entry_idiom)
  /\ (is_idiom entry_idiom = true
      <-> 4 <= len (traditional entry_idiom)
          \/ 4 <= len (simplified entry_idiom)).
Proof.
  split; [reflexivity|].
  apply (is_idiom_iff_four_code_points echo_pinyin line_idiom entry_idiom).
  reflexivity.
Defined.

(** The two-character headword of the specification is not. *)
Example nihao_is_not_idiom :
  parse_cc_cedict_line echo_pinyin line_nihao = Ok (Some entry_nihao)
  /\ len (traditional entry_nihao) = 2
  /\ is_idiom entry_nihao = false.
Proof. repeat split. Qed.

(* ===================================================================== *)
(** ** Pronunciation *)
(* ===================================================================== *)

(** The two pronunciation fields are what the transliteration functions
    return on the traditional headword. *)
Lemma pronunciation_of_traditional
    (pypinyin : str -> Style -> result (list (list str)))
    (line : str) (e : entry) :
  parse_cc_cedict_line pypinyin line = Ok (Some e) ->
  get_pinyin_from_characters pypinyin (traditional e) = Ok (pinyin e)
  /\ get_zhuyin_from_characters pypinyin (traditional e) = Ok (zhuyin e).
Proof.
  intros H.
  destruct (parse_entry_inv _ _ _ H) as (rest & _ & _ & _ & Hp & Hz & _).
  split; assumption.
Qed.

(** C7 (as amended).  The pinyin and zhuyin of an entry depend on the line
    through the traditional headword only (the text before the first
    space of the trimmed line): two lines with the same traditional
    headword give the same pinyin and the same zhuyin, whatever the
    simplified headword, the bracketed romanization and the glosses are.
    On the empty string both transliteration functions return the empty
    string without calling pypinyin, so an entry with an empty traditional
    headword would have both fields empty. *)
Theorem pronunciation_noninterference
    (pypinyin : str -> Style -> result (list (list str))) :
  (forall (line1 line2 : str) (e1 e2 : entry),
      parse_cc_cedict_line pypinyin line1 = Ok (Some e1) ->
      parse_cc_cedict_line pypinyin line2 = Ok (Some e2) ->
      traditional e1 = traditional e2 ->
      pinyin e1 = pinyin e2 /\ zhuyin e1 = zhuyin e2)
  /\ (forall (line : str) (e : entry),
         parse_cc_cedict_line pypinyin line = Ok (Some e) ->
         traditional e = [] -> pinyin e = [] /\ zhuyin e = [])
  /\ get_pinyin_from_characters pypinyin [] = Ok []
  /\ get_zhuyin_from_characters pypinyin [] = Ok [].
Proof.
  split; [|split; [|split; reflexivity]].
  - intros line1 line2 e1 e2 H1 H2 Ht.
    destruct (pronunciation_of_traditional _ _ _ H1) as (P1 & Z1).
    destruct (pronunciation_of_traditional _ _ _ H2) as (P2 & Z2).
    rewrite Ht in P1, Z1. split; congruence.
  - intros line e H Ht.
    destruct (pronunciation_of_traditional _ _ _ H) as (P & Z).
    rewrite Ht in P, Z. injection P as P. injection Z as Z.
    split; symmetry; assumption.
Qed.

(** Two lines that share the traditional headword and nothing else. *)
Lemma pronunciation_noninterference_witness :
  exists e1 e2,
    parse_cc_cedict_line echo_pinyin line_yi = Ok (Some e1)
    /\ parse_cc_cedict_line echo_pinyin line_yi_variant = Ok (Some e2)
    /\ simplified e1 <> simplified e2
    /\ meaning e1 <> meaning e2
    /\ pinyin e1 = pinyin e2 /\ zhuyin e1 = zhuyin e2.
Proof.
  eexists. eexists.
  split; [reflexivity|]. split; [reflexivity|].
  split; [discriminate|]. split; [discriminate|].
  apply (proj1 (pronunciation_noninterference echo_pinyin)
               line_yi line_yi_variant); reflexivity.
Defined.

(** C7 as stated fails: the lines ["a<TAB>b c /x/"] and ["a c /x/"] have the
    same first whitespace-delimited token, [a], and different pinyin,
    because the headword ends at the first space, not at the tab. *)
Lemma same_first_token_different_pinyin :
  exists e1 e2,
    hd_error (split_whitespace (lit "a" ++ TAB :: lit "b c /x/"))
    = hd_error (split_whitespace (lit "a c /x/"))
    /\ parse_cc_cedict_line echo_pinyin (lit "a" ++ TAB :: lit "b c /x/")
       = Ok (Some e1)
    /\ parse_cc_cedict_line echo_pinyin (lit "a c /x/") = Ok (Some e2)
    /\ pinyin e1 = lit "a" ++ SPACE :: TAB :: SPACE :: lit "b"
    /\ pinyin e2 = lit "a"
    /\ pinyin e1 <> pinyin e2.
Proof.
  eexists. eexists.
  split; [reflexivity|]. split; [reflexivity|]. split; [reflexivity|].
  split; [reflexivity|]. split; [reflexivity|]. discriminate.
Qed.

(* ===================================================================== *)
(** ** Totality *)
(* ===================================================================== *)

Section Totality.

Variable pypinyin : str -> Style -> result (list (list str)).
Hypothesis pypinyin_never_raises : pypinyin_total pypinyin.

Lemma first_readings_total (l : list (list str)) :
  Forall (fun item => item <> []) l ->
  exists texts, first_readings l = Ok texts.
Proof.
  induction 1 as [|item l Hitem _ IH]; simpl; [eauto|].
  destruct item as [|reading item]; [congruence|].
  destruct IH as (texts & ->). simpl. eauto.
Qed.

Lemma get_pinyin_total (characters : str) :
  exists text, get_pinyin_from_characters pypinyin characters = Ok text.
Proof.
  unfold get_pinyin_from_characters.
  destruct (negb (truthy characters)); [eauto|].
  destruct (pypinyin_never_raises characters TONE) as (l & -> & Hl).
  cbn [bind].
  destruct (first_readings_total l Hl) as (texts & ->). simpl. eauto.
Qed.

Lemma get_zhuyin_total (characters : str) :
  exists text, get_zhuyin_from_characters pypinyin characters = Ok text.
Proof.
  unfold get_zhuyin_from_characters.
  destruct (negb (truthy characters)); [eauto|].
  destruct (pypinyin_never_raises characters BOPOMOFO) as (l & -> & Hl).
  cbn [bind].
  destruct (first_readings_total l Hl) as (texts & ->). simpl. eauto.
Qed.

End Totality.

Lemma echo_pinyin_total : pypinyin_total echo_pinyin.
Proof.
  intros characters style. eexists. split; [reflexivity|].
  induction characters as [|c s IH]; simpl; constructor;
    [discriminate | exact IH].
Qed.

(** C10.  When pypinyin is total, the parser returns on every string
    without raising: either [None], or a dict with exactly the six keys
    traditional, simplified, pinyin, zhuyin, meaning, is_idiom. *)
Theorem parse_cc_cedict_line_total
    (pypinyin : str -> Style -> result (list (list str))) (line : str) :
  pypinyin_total pypinyin ->
  parse_cc_cedict_line pypinyin line = Ok None
  \/ exists e,
       parse_cc_cedict_line pypinyin line = Ok (Some e)
       /\ map fst (entry_items e)
          = [lit "traditional"; lit "simplified"; lit "pinyin";
             lit "zhuyin"; lit "meaning"; lit "is_idiom"].
Proof.
  intros Htotal.
  destruct (list_eq_dec N.eq_dec (strip line) []) as [Hempty|Hne].
  { left. unfold parse_cc_cedict_line. rewrite Hempty. reflexivity. }
  destruct (startswith line [HASH]) eqn:Hhash.
  { left. unfold parse_cc_cedict_line. rewrite Hhash, orb_true_r.
    reflexivity. }
  destruct (length (split SPACE (Some 2) (strip line)) <? 3) eqn:Hlen.
  { left. unfold parse_cc_cedict_line.
    destruct (strip line) as [|c l]; [contradiction|].
    simpl truthy. rewrite Hhash, Hlen. reflexivity. }
  right.
  destruct (parts_three line Hlen) as (t & s & rest & Hparts).
  rewrite (parse_three pypinyin line t s rest Hne Hhash Hparts).
  destruct (get_pinyin_total pypinyin Htotal t) as (p & ->).
  destruct (get_zhuyin_total pypinyin Htotal t) as (z & ->).
  simpl. eexists. split; reflexivity.
Qed.

(** Brackets that do not match and glosses without their slashes. *)
Lemma parse_cc_cedict_line_total_witness :
  parse_cc_cedict_line echo_pinyin (lit "a b ]x[ [y /z") = Ok None
  \/ exists e,
       parse_cc_cedict_line echo_pinyin (lit "a b ]x[ [y /z") = Ok (Some e)
       /\ map fst (entry_items e)
          = [lit "traditional"; lit "simplified"; lit "pinyin";
             lit "zhuyin"; lit "meaning"; lit "is_idiom"].
Proof.
  apply (parse_cc_cedict_line_total echo_pinyin (lit "a b ]x[ [y /z")).
  exact echo_pinyin_total.
Defined.

(* ===================================================================== *)
(** ** Headwords and the remainder *)
(* ===================================================================== *)

Section Headwords.

Variable pypinyin : str -> Style -> result (list (list str)).

Lemma parse_short (line : str) :
  length (split SPACE (Some 2) (strip line)) < 3 ->
  parse_cc_cedict_line pypinyin line = Ok None.
Proof.
  intros H. apply Nat.ltb_lt in H. unfold parse_cc_cedict_line.
  destruct (negb (truthy (strip line)) || startswith line [HASH]);
    [reflexivity|].
  rewrite H. reflexivity.
Qed.

(** Trimming removes characters, so it adds no space. *)
Lemma count_strip_le (c : char) (s : str) :
  count_occ N.eq_dec (strip s) c <= count_occ N.eq_dec s c.
Proof.
  destruct (strip_split s) as (w1 & w2 & Hs & _).
  apply (f_equal (fun l => count_occ N.eq_dec l c)) in Hs.
  rewrite !count_occ_app in Hs. length_lia.
Qed.

(** The trimmed line of an entry starts with a character that is not
    whitespace, so the traditional headword is not empty. *)
Lemma traditional_nonempty (line : str) (e : entry) :
  parse_cc_cedict_line pypinyin line = Ok (Some e) -> traditional e <> [].
Proof.
  intros H Ht.
  destruct (parse_entry_inv _ _ _ H) as (rest & _ & _ & Hparts & _).
  destruct (split_three_inv _ _ _ _ _ Hparts) as (Hline & _).
  rewrite Ht in Hline. simpl in Hline.
  pose proof (strip_head _ _ _ Hline) as Hsp. discriminate.
Qed.

(** *** Whitespace-delimited tokens *)

Lemma split_whitespace_blank_app (w s : str) :
  forallb isspace w = true -> split_whitespace (w ++ s) = split_whitespace s.
Proof.
  induction w as [|a w IH]; simpl; [reflexivity|].
  destruct (isspace a); simpl; [exact IH | discriminate].
Qed.

(** A run of non-whitespace characters followed by a whitespace character
    is the first token. *)
Lemma split_whitespace_token (t : str) (c : char) (s : str) :
  t <> [] -> no_whitespace t -> isspace c = true ->
  split_whitespace (t ++ c :: s) = t :: split_whitespace s.
Proof.
  unfold no_whitespace.
  induction t as [|a t IH]; intros Hne Ht Hc; [congruence|].
  simpl in Ht. apply andb_true_iff in Ht. destruct Ht as (Ha & Ht).
  apply negb_true_iff in Ha.
  destruct t as [|b t].
  - simpl. rewrite Ha, Hc. reflexivity.
  - change (split_whitespace ((a :: b :: t) ++ c :: s))
      with (if isspace a then split_whitespace ((b :: t) ++ c :: s)
            else if isspace b then [a] :: split_whitespace ((b :: t) ++ c :: s)
            else cons_piece a (split_whitespace ((b :: t) ++ c :: s))).
    rewrite Ha.
    assert (Hb : isspace b = false).
    { simpl in Ht. apply andb_true_iff in Ht. destruct Ht as (Hb & _).
      now apply negb_true_iff in Hb. }
    rewrite Hb, IH by (congruence || assumption). reflexivity.
Qed.

End Headwords.

(** C4 (as amended).  For every line from which the parser produces an
    entry, the traditional and simplified fields are the first two fields
    of the trimmed line cut at single space characters (U+0020), taken
    verbatim: the trimmed line is traditional, a space, simplified, a
    space and the remainder; neither field holds a space; and traditional
    is not empty.  When moreover simplified is not empty and neither field
    holds any whitespace character, the two fields are the first two
    whitespace-delimited tokens of the line. *)
Theorem headwords_are_space_delimited
    (pypinyin : str -> Style -> result (list (list str)))
    (line : str) (e : entry) :
  parse_cc_cedict_line pypinyin line = Ok (Some e) ->
  (exists rest,
      strip line = traditional e ++ SPACE :: simplified e ++ SPACE :: rest)
  /\ ~ In SPACE (traditional e)
  /\ ~ In SPACE (simplified e)
  /\ traditional e <> []
  /\ (simplified e <> [] ->
      no_whitespace (traditional e) -> no_whitespace (simplified e) ->
      exists tokens,
        split_whitespace line = traditional e :: simplified e :: tokens).
Proof.
  intros H.
  pose proof (traditional_nonempty _ _ _ H) as Hne.
  destruct (parse_entry_inv _ _ _ H) as (rest & _ & _ & Hparts & _).
  destruct (split_three_inv _ _ _ _ _ Hparts) as (Hline & Ht & Hs).
  split; [exists rest; exact Hline|].
  split; [exact Ht|]. split; [exact Hs|]. split; [exact Hne|].
  intros Hsne Wt Ws.
  destruct (strip_split line) as (w1 & w2 & Hsplit & Hw1 & _).
  exists (split_whitespace (rest ++ w2)).
  rewrite Hsplit, Hline.
  rewrite split_whitespace_blank_app by exact Hw1.
  rewrite <- app_assoc. simpl.
  rewrite split_whitespace_token by (assumption || reflexivity).
  rewrite <- app_assoc. simpl.
  rewrite split_whitespace_token by (assumption || reflexivity).
  reflexivity.
Qed.

Lemma headwords_are_space_delimited_witness :
  exists e,
    parse_cc_cedict_line echo_pinyin line_yi = Ok (Some e)
    /\ strip line_yi
       = traditional e ++ SPACE :: simplified e
           ++ SPACE :: lit "[yi4] /one/single/a (article)/"
    /\ traditional e = YI /\ simplified e = YI
    /\ ~ In SPACE (traditional e).
Proof.
  eexists. split; [reflexivity|]. split; [reflexivity|].
  split; [reflexivity|]. split; [reflexivity|].
  apply (headwords_are_space_delimited echo_pinyin line_yi). reflexivity.
Defined.

(** C4 as stated fails: in ["a  b /x/"] two spaces follow the first
    headword; the whitespace-delimited tokens are [a], [b] and [/x/], and
    the entry has an empty simplified field. *)
Lemma double_space_empty_simplified :
  exists e,
    parse_cc_cedict_line echo_pinyin (lit "a  b /x/") = Ok (Some e)
    /\ split_whitespace (lit "a  b /x/") = [lit "a"; lit "b"; lit "/x/"]
    /\ traditional e = lit "a"
    /\ simplified e = [].
Proof. eexists. repeat split. Qed.



(** A remainder made of a bracketed span only: an entry without glosses. *)
Example bracket_only_remainder :
  parse_cc_cedict_line echo_pinyin (lit "a b [x]")
  = Ok (Some (mkEntry (lit "a") (lit "b") (lit "a") (lit "a") [] false)).
Proof. reflexivity. Qed.


(* ===================================================================== *)
(** ** Lines with too few parts *)
(* ===================================================================== *)

(** [split] cuts at every separator until [maxsplit] is used up. *)
Lemma split_length_min (sep : char) (n : nat) (s : str) :
  length (split sep (Some n) s) = S (Nat.min n (count_occ N.eq_dec s sep)).
Proof.
  revert n. induction s as [|c s IH]; intros n; simpl.
  - rewrite Nat.min_0_r. reflexivity.
  - destruct (N.eq_dec c sep) as [->|Hc].
    + rewrite N.eqb_refl. destruct n as [|n].
      * rewrite length_cons_piece by apply split_nonempty.
        rewrite IH. reflexivity.
      * cbn [length]. rewrite IH. reflexivity.
    + destruct (N.eqb_spec c sep) as [->|_]; [congruence|].
      rewrite length_cons_piece by apply split_nonempty. apply IH.
Qed.

Lemma split_whitespace_cons2 (x y : char) (s : str) :
  split_whitespace (x :: y :: s)
  = if isspace x then split_whitespace (y :: s)
    else if isspace y then [x] :: split_whitespace (y :: s)
    else cons_piece x (split_whitespace (y :: s)).
Proof. reflexivity. Qed.

(** A string that holds a character other than whitespace has a token. *)
Lemma split_whitespace_nonempty (s : str) (c : char) :
  In c s -> isspace c = false -> split_whitespace s <> [].
Proof.
  induction s as [|x s IH]; intros Hin Hc; [destruct Hin|].
  destruct s as [|y s'].
  - destruct Hin as [->|[]]. simpl. rewrite Hc. discriminate.
  - rewrite split_whitespace_cons2. destruct (isspace x) eqn:Hx.
    + destruct Hin as [->|Hin]; [congruence | exact (IH Hin Hc)].
    + destruct (isspace y); [discriminate|].
      destruct (split_whitespace (y :: s')); discriminate.
Qed.

(** A whitespace character ends the token before it: the tokens of the
    two sides add up. *)
Lemma split_whitespace_length_app (a b : str) (c : char) :
  isspace c = true ->
  length (split_whitespace (a ++ c :: b))
  = length (split_whitespace a) + length (split_whitespace b).
Proof.
  intros Hc. induction a as [|x a IH].
  - simpl. rewrite Hc. reflexivity.
  - destruct a as [|y a'].
    + simpl. rewrite Hc. destruct (isspace x); reflexivity.
    + change ((x :: y :: a') ++ c :: b) with (x :: y :: (a' ++ c :: b)).
      rewrite !split_whitespace_cons2.
      change (y :: a' ++ c :: b) with ((y :: a') ++ c :: b).
      destruct (isspace x); [exact IH|].
      destruct (isspace y) eqn:Hy; [cbn [length]; rewrite IH; reflexivity|].
      rewrite !length_cons_piece; [exact IH | |].
      * apply (split_whitespace_nonempty _ y); [now left | exact Hy].
      * apply (split_whitespace_nonempty _ y); [now left | exact Hy].
Qed.

(** A line with a space inside its trimmed form has two tokens at least. *)
Lemma few_tokens_no_space (line : str) :
  length (split_whitespace line) < 2 ->
  count_occ N.eq_dec (strip line) SPACE = 0.
Proof.
  intros Hlen.
  destruct (count_occ N.eq_dec (strip line) SPACE) as [|k] eqn:Hk;
    [reflexivity | exfalso].
  assert (Hin : In SPACE (strip line)).
  { apply (count_occ_In N.eq_dec). rewrite Hk. lia. }
  destruct (in_split _ _ Hin) as (a & b & Hab).
  destruct (strip_split line) as (w1 & w2 & Hline & _ & _).
  destruct a as [|x a'].
  { pose proof (strip_head _ _ _ Hab) as Hs. vm_compute in Hs.
    discriminate Hs. }
  assert (Hx : isspace x = false) by exact (strip_head _ _ _ Hab).
  destruct (exists_last (l := SPACE :: b) ltac:(discriminate))
    as (u & d & Hu).
  assert (Hd : isspace d = false).
  { apply (strip_last line ((x :: a') ++ u)).
    rewrite Hab, <- app_assoc. f_equal. exact Hu. }
  destruct b as [|y b'].
  { destruct u as [|? [|? ?]]; try discriminate.
    injection Hu as <-. discriminate. }
  assert (Hdb : In d (y :: b')).
  { assert (Hi : In d (SPACE :: y :: b'))
      by (rewrite Hu; apply in_or_app; right; now left).
    destruct Hi as [<-|Hi]; [discriminate | exact Hi]. }
  assert (Hcut : line = (w1 ++ x :: a') ++ SPACE :: ((y :: b') ++ w2)).
  { rewrite Hline at 1. rewrite Hab, <- !app_assoc. reflexivity. }
  rewrite Hcut, split_whitespace_length_app in Hlen by reflexivity.
  assert (H1 : split_whitespace (w1 ++ x :: a') <> []).
  { apply (split_whitespace_nonempty _ x); [|exact Hx].
    apply in_or_app. right. now left. }
  assert (H2 : split_whitespace ((y :: b') ++ w2) <> []).
  { apply (split_whitespace_nonempty _ d); [|exact Hd].
    apply in_or_app. left. exact Hdb. }
  destruct (split_whitespace (w1 ++ x :: a')); [congruence|].
  destruct (split_whitespace ((y :: b') ++ w2)); [congruence|].
  cbn [length] in Hlen. lia.
Qed.




(* ===================================================================== *)
(** ** Glosses *)
(* ===================================================================== *)

Section Glosses.

Lemma startswith_char (s : str) (c : char) :
  startswith s [c] = true <-> exists u, s = c :: u.
Proof.
  destruct s as [|a s]; simpl.
  - split; [discriminate | intros (u & H); discriminate].
  - rewrite andb_true_r, N.eqb_eq. split.
    + intros ->. eauto.
    + intros (u & H). now injection H.
Qed.

Lemma endswith_char (s : str) (c : char) :
  endswith s [c] = true <-> exists v, s = v ++ [c].
Proof.
  unfold endswith. simpl rev. rewrite startswith_char. split.
  - intros (u & H). exists (rev u).
    apply (f_equal (@rev char)) in H. rewrite rev_involutive in H.
    rewrite H. reflexivity.
  - intros (v & ->). exists (rev v). rewrite rev_app_distr. reflexivity.
Qed.

Lemma slash_bracketing (gloss : str) :
  startswith gloss [SLASH] && endswith gloss [SLASH] = true
  <-> starts_and_ends_with_slash gloss.
Proof.
  unfold starts_and_ends_with_slash.
  rewrite andb_true_iff, startswith_char, endswith_char. reflexivity.
Qed.

(** [s[1:-1]] drops the first and the last character. *)
Lemma slice_1_m1 (s : str) : slice s 1 (-1) = removelast (tl s).
Proof.
  destruct s as [|c t]; [reflexivity|].
  unfold slice, clamp_index.
  replace (1 <? 0)%Z with false by reflexivity.
  replace (-1 <? 0)%Z with true by reflexivity.
  cbv zeta.
  replace (Z.min 1 (Z.of_nat (length (c :: t)))) with 1%Z
    by (simpl length; lia).
  replace (Z.to_nat (Z.max 0 (-1 + Z.of_nat (length (c :: t))) - 1))
    with (pred (length t)) by (simpl length; lia).
  simpl. symmetry. apply removelast_firstn_len.
Qed.

(** Trimming the kept pieces is keeping the trimmed pieces. *)
Lemma comprehension_filter_map (pieces : list str) :
  map strip (filter (fun m => truthy (strip m)) pieces)
  = filter (fun piece => truthy piece) (map strip pieces).
Proof.
  induction pieces as [|p ps IH]; simpl; [reflexivity|].
  destruct (truthy (strip p)); simpl; now rewrite IH.
Qed.

Lemma meanings_of_well_formed (rest : str) :
  starts_and_ends_with_slash (strip (re_sub_brackets rest)) ->
  meanings_of rest = spec_glosses (strip (re_sub_brackets rest)).
Proof.
  intros H. apply slash_bracketing in H. unfold meanings_of.
  rewrite H. unfold spec_glosses, spec_strip_slashes.
  now rewrite slice_1_m1, comprehension_filter_map.
Qed.

Lemma meanings_of_ill_formed (rest : str) :
  ~ starts_and_ends_with_slash (strip (re_sub_brackets rest)) ->
  meanings_of rest = [].
Proof.
  intros H. unfold meanings_of.
  destruct (startswith _ [SLASH] && endswith _ [SLASH]) eqn:E;
    [|reflexivity].
  apply slash_bracketing in E. contradiction.
Qed.

(** *** The bracket substitution *)

Lemma re_sub_brackets_no_bracket (s : str) :
  ~ In LBRACKET s -> re_sub_brackets s = s.
Proof.
  induction s as [|c s IH]; intros H; [reflexivity|].
  simpl. destruct (N.eqb_spec c LBRACKET) as [->|Hc].
  - exfalso. apply H. now left.
  - simpl. rewrite IH; [reflexivity|]. intros Hin. apply H. now right.
Qed.

Lemma after_close_span (b c : str) :
  ~ In RBRACKET b -> ~ In NEWLINE b ->
  after_close (b ++ RBRACKET :: c) = Some c.
Proof.
  induction b as [|x b IH]; intros Hr Hn; simpl.
  - reflexivity.
  - destruct (N.eqb_spec x RBRACKET) as [->|_];
      [exfalso; apply Hr; now left|].
    destruct (N.eqb_spec x NEWLINE) as [->|_];
      [exfalso; apply Hn; now left|].
    apply IH; intros Hin; [apply Hr | apply Hn]; now right.
Qed.

Lemma skip_match_span (b c : str) :
  ~ In RBRACKET b -> skip_match (b ++ RBRACKET :: c) = re_sub_brackets c.
Proof.
  induction b as [|x b IH]; intros Hr; simpl.
  - reflexivity.
  - destruct (N.eqb_spec x RBRACKET) as [->|_];
      [exfalso; apply Hr; now left|].
    apply IH. intros Hin. apply Hr. now right.
Qed.

(** A span from [[] to the first []] after it, on one line, is removed,
    and the substitution goes on after it. *)
Lemma re_sub_brackets_span (a b c : str) :
  ~ In LBRACKET a -> ~ In RBRACKET b -> ~ In NEWLINE b ->
  re_sub_brackets (a ++ LBRACKET :: b ++ RBRACKET :: c)
  = a ++ re_sub_brackets c.
Proof.
  intros Ha Hr Hn. induction a as [|x a IH]; simpl.
  - unfold closes. rewrite after_close_span by assumption. simpl.
    now apply skip_match_span.
  - destruct (N.eqb_spec x LBRACKET) as [->|_];
      [exfalso; apply Ha; now left|].
    simpl. rewrite IH; [reflexivity|]. intros Hin. apply Ha. now right.
Qed.

(** An opening bracket that nothing closes stays in the text. *)
Lemma re_sub_brackets_unclosed (s : str) :
  after_close s = None ->
  re_sub_brackets (LBRACKET :: s) = LBRACKET :: re_sub_brackets s.
Proof. intros H. simpl. unfold closes. now rewrite H. Qed.

End Glosses.



(** A gloss section without its closing slash gives no meaning and no
    error. *)
Example gloss_without_slashes :
  parse_cc_cedict_line echo_pinyin (lit "a b [x] /one/two")
  = Ok (Some (mkEntry (lit "a") (lit "b") (lit "a") (lit "a") [] false)).
Proof. reflexivity. Qed.

(* ===================================================================== *)
(** ** The batch driver *)
(* ===================================================================== *)

Section Driver.

Variable pypinyin : str -> Style -> result (list (list str)).

(** The loop adds to its two lists and never drops anything from them. *)
Lemma parse_lines_spec (lines : list str) :
  forall (line_num : nat) (entries : list entry) (printed : list warning),
    parse_lines pypinyin line_num lines entries printed
    = (entries ++ entries_of pypinyin lines,
       printed ++ warnings_from pypinyin line_num lines).
Proof.
  induction lines as [|line lines IH]; intros n es ws; simpl.
  - now rewrite !app_nil_r.
  - destruct (parse_cc_cedict_line pypinyin line) as [[e|]|exn];
      rewrite IH, <- ?app_assoc; reflexivity.
Qed.

Lemma parse_cc_cedict_file_spec (lines : list str) :
  parse_cc_cedict_file pypinyin lines
  = (entries_of pypinyin lines, warnings_from pypinyin 1 lines).
Proof. unfold parse_cc_cedict_file. now rewrite parse_lines_spec. Qed.

(** Warnings carry the numbers of the lines they come from. *)
Lemma warnings_from_ge (lines : list str) :
  forall (line_num : nat) (w : warning),
    In w (warnings_from pypinyin line_num lines) -> line_num <= fst w.
Proof.
  induction lines as [|line lines IH]; intros n w; simpl; [tauto|].
  destruct (parse_cc_cedict_line pypinyin line) as [r|exn].
  - intros H. apply IH in H. lia.
  - intros [<-|H]; [simpl; lia|]. apply IH in H. lia.
Qed.

Lemma warnings_from_other_number (lines : list str) (line_num k : nat) :
  k < line_num ->
  filter (fun w => fst w =? k) (warnings_from pypinyin line_num lines) = [].
Proof.
  intros Hk.
  assert (H : forall w, In w (warnings_from pypinyin line_num lines) ->
                        (fst w =? k) = false).
  { intros w Hw. apply warnings_from_ge in Hw. apply Nat.eqb_neq. lia. }
  induction (warnings_from pypinyin line_num lines) as [|w ws IH];
    simpl; [reflexivity|].
  rewrite (H w) by now left. apply IH. intros w' Hw'. apply H. now right.
Qed.

(** A line on which the parser raises has exactly one warning under its
    number. *)
Lemma one_warning_per_fault (lines : list str) :
  forall (line_num i : nat) (line : str) (exn : exception),
    nth_error lines i = Some line ->
    parse_cc_cedict_line pypinyin line = Raise exn ->
    filter (fun w => fst w =? line_num + i)
           (warnings_from pypinyin line_num lines)
    = [(line_num + i, exn)].
Proof.
  induction lines as [|l lines IH]; intros n i line exn Hnth Hraise.
  - destruct i; discriminate.
  - destruct i as [|i]; simpl in Hnth.
    + injection Hnth as ->. simpl. rewrite Hraise. simpl.
      rewrite Nat.add_0_r, Nat.eqb_refl.
      rewrite warnings_from_other_number by lia. reflexivity.
    + specialize (IH (S n) i line exn Hnth Hraise).
      replace (S n + i) with (n + S i) in IH by lia.
      simpl. destruct (parse_cc_cedict_line pypinyin l) as [r|exn'];
        [exact IH|].
      simpl. replace (n =? n + S i) with false
        by (symmetry; apply Nat.eqb_neq; lia).
      exact IH.
Qed.

(** When every line gives an entry, there is no warning. *)
Lemma all_lines_valid (lines : list str) (line_num : nat) :
  (forall line, In line lines ->
                exists e, parse_cc_cedict_line pypinyin line = Ok (Some e)) ->
  warnings_from pypinyin line_num lines = []
  /\ length (entries_of pypinyin lines) = length lines.
Proof.
  revert line_num. induction lines as [|l lines IH]; intros n H; simpl.
  - split; reflexivity.
  - destruct (H l (or_introl eq_refl)) as (e & ->).
    destruct (IH (S n)) as (Hw & He).
    { intros line Hin. apply H. now right. }
    simpl. rewrite Hw, He. split; reflexivity.
Qed.

(** One faulty line among valid ones. *)
Lemma one_fault (lines : list str) :
  forall (line_num i : nat) (line : str) (exn : exception),
    nth_error lines i = Some line ->
    parse_cc_cedict_line pypinyin line = Raise exn ->
    (forall j other,
        j <> i -> nth_error lines j = Some other ->
        exists e, parse_cc_cedict_line pypinyin other = Ok (Some e)) ->
    warnings_from pypinyin line_num lines = [(line_num + i, exn)]
    /\ S (length (entries_of pypinyin lines)) = length lines.
Proof.
  induction lines as [|l lines IH]; intros n i line exn Hnth Hraise Hvalid.
  - destruct i; discriminate.
  - destruct i as [|i]; simpl in Hnth.
    + injection Hnth as ->. simpl. rewrite Hraise. simpl.
      destruct (all_lines_valid lines (S n)) as (Hw & He).
      { intros other Hin. apply In_nth_error in Hin.
        destruct Hin as (j & Hj). apply (Hvalid (S j) other); [lia|exact Hj]. }
      rewrite Hw, He, Nat.add_0_r. split; reflexivity.
    + destruct (Hvalid 0 l) as (e & He); [lia | reflexivity |].
      destruct (IH (S n) i line exn Hnth Hraise) as (Hw & Hlen).
      { intros j other Hj Hnj. apply (Hvalid (S j) other); [lia|exact Hnj]. }
      simpl. rewrite He. simpl. rewrite Hw, Hlen.
      split; [f_equal; f_equal; lia | reflexivity].
Qed.

End Driver.

(** C1.  The driver returns on every sequence of lines, and:
    - its entries are those of the lines that parse, in order, whatever
      happens on the other lines;
    - a line on which the parser raises has exactly one warning, under its
      1-based line number and with the exception raised;
    - when line [K] of [N] lines raises and every other line gives an
      entry, the result is [N - 1] entries and the single warning of line
      [K]. *)
Theorem fault_isolation
    (pypinyin : str -> Style -> result (list (list str)))
    (lines : list str) :
  fst (parse_cc_cedict_file pypinyin lines) = entries_of pypinyin lines
  /\ (forall (K : nat) (line : str) (exn : exception),
         1 <= K -> nth_error lines (K - 1) = Some line ->
         parse_cc_cedict_line pypinyin line = Raise exn ->
         filter (fun w => fst w =? K)
                (snd (parse_cc_cedict_file pypinyin lines))
         = [(K, exn)])
  /\ (forall (K : nat) (line : str) (exn : exception),
         1 <= K -> nth_error lines (K - 1) = Some line ->
         parse_cc_cedict_line pypinyin line = Raise exn ->
         (forall j other,
             j <> K - 1 -> nth_error lines j = Some other ->
             exists e, parse_cc_cedict_line pypinyin other = Ok (Some e)) ->
         snd (parse_cc_cedict_file pypinyin lines) = [(K, exn)]
         /\ length (fst (parse_cc_cedict_file pypinyin lines))
            = length lines - 1).
Proof.
  rewrite parse_cc_cedict_file_spec. simpl fst. simpl snd.
  split; [reflexivity|]. split.
  - intros K line exn HK Hnth Hraise.
    pose proof (one_warning_per_fault pypinyin lines 1 (K - 1) line exn
                  Hnth Hraise) as H.
    replace (1 + (K - 1)) with K in H by lia. exact H.
  - intros K line exn HK Hnth Hraise Hvalid.
    destruct (one_fault pypinyin lines 1 (K - 1) line exn Hnth Hraise Hvalid)
      as (Hw & Hlen).
    replace (1 + (K - 1)) with K in Hw by lia.
    split; [exact Hw | lia].
Qed.

(** Four lines, the second of which makes pypinyin raise: three entries
    and one warning, for line 2. *)
Lemma fault_isolation_witness :
  snd (parse_cc_cedict_file failing_pinyin four_lines)
  = [(2, OracleError (lit "no reading"))]
  /\ length (fst (parse_cc_cedict_file failing_pinyin four_lines)) = 4 - 1.
Proof.
  apply (proj2 (proj2 (fault_isolation failing_pinyin four_lines))
               2 (lit "c! d /y/") (OracleError (lit "no reading"))).
  - lia.
  - reflexivity.
  - reflexivity.
  - intros [|[|[|[|j]]]] other Hj Hnth; simpl in Hnth;
      try (injection Hnth as <-; eexists; reflexivity).
    + exfalso. apply Hj. reflexivity.
    + destruct j; discriminate.
Defined.

(* ===================================================================== *)
(** ** Facts about the JSON encoder and decoder *)
(* ===================================================================== *)

Module JsonFacts.

Import Json.

(** *** Strings *)

Lemma hexval_hex_digit (n : N) :
  (n < 16)%N -> hexval (hex_digit n) = Some n.
Proof.
  intros Hn. unfold hex_digit, hexval.
  destruct (N.ltb_spec n 10) as [Hlt|Hge].
  - replace ((48 <=? 48 + n) && (48 + n <=? 57))%N with true
      by (symmetry; apply andb_true_iff; split; apply N.leb_le; lia).
    f_equal. lia.
  - replace ((48 <=? 87 + n) && (87 + n <=? 57))%N with false
      by (symmetry; apply andb_false_iff; right; apply N.leb_gt; lia).
    replace ((97 <=? 87 + n) && (87 + n <=? 102))%N with true
      by (symmetry; apply andb_true_iff; split; apply N.leb_le; lia).
    f_equal. lia.
Qed.

(** The decoder reads the escape of a character as that character. *)
Lemma scanstring_escape (c : char) (tail : str) :
  scanstring (escape_char c ++ tail) = prepend c (scanstring tail).
Proof.
  unfold escape_char.
  destruct (N.eqb_spec c BACKSLASH) as [->|Hbs]; [reflexivity|].
  destruct (N.eqb_spec c QUOTE) as [->|Hq]; [reflexivity|].
  destruct (N.eqb_spec c 8) as [->|H8]; [reflexivity|].
  destruct (N.eqb_spec c 12) as [->|H12]; [reflexivity|].
  destruct (N.eqb_spec c 10) as [->|H10]; [reflexivity|].
  destruct (N.eqb_spec c 13) as [->|H13]; [reflexivity|].
  destruct (N.eqb_spec c 9) as [->|H9]; [reflexivity|].
  destruct (N.ltb_spec c 32) as [Hlt|Hge].
  - assert (Hhi : (c / 16 < 16)%N).
    { apply N.Div0.div_lt_upper_bound. lia. }
    assert (Hlo : (c mod 16 < 16)%N) by (apply N.mod_lt; lia).
    cbn [app scanstring].
    replace (BACKSLASH =? QUOTE)%N with false by reflexivity.
    replace (BACKSLASH =? BACKSLASH)%N with true by reflexivity.
    replace (117 =? 117)%N with true by reflexivity.
    replace (hexval 48%N) with (Some 0%N) by reflexivity.
    rewrite (hexval_hex_digit _ Hhi), (hexval_hex_digit _ Hlo).
    cbv zeta.
    replace (hex4 0 0 (c / 16) (c mod 16)) with c
      by (unfold hex4; rewrite (N.div_mod c 16) at 1 by lia; lia).
    replace (is_high_surrogate c) with false
      by (symmetry; apply andb_false_iff; left; apply N.leb_gt; lia).
    reflexivity.
  - cbn [app scanstring].
    destruct (N.eqb_spec c QUOTE) as [|_]; [contradiction|].
    destruct (N.eqb_spec c BACKSLASH) as [|_]; [contradiction|].
    destruct (N.ltb_spec c 32) as [|_]; [lia|]. reflexivity.
Qed.

(** The decoder reads an encoded string back, and stops right after its
    closing quote. *)
Lemma scanstring_encode (s rest : str) :
  scanstring (flat_map escape_char s ++ QUOTE :: rest) = Some (s, rest).
Proof.
  induction s as [|c s IH]; [reflexivity|].
  simpl flat_map. rewrite <- app_assoc, scanstring_escape, IH. reflexivity.
Qed.

(** *** Values *)

Section ValueInduction.

Variable P : value -> Prop.
Hypothesis HNone : P VNone.
Hypothesis HBool : forall b, P (VBool b).
Hypothesis HStr : forall s, P (VStr s).
Hypothesis HList : forall l, Forall P l -> P (VList l).
Hypothesis HDict :
  forall items, Forall (fun kv => P (snd kv)) items -> P (VDict items).

Lemma value_nested_ind : forall v, P v.
Proof.
  fix IH 1. intros [|b|s|l|items].
  - exact HNone.
  - apply HBool.
  - apply HStr.
  - apply HList. induction l as [|x l IHl]; constructor; [apply IH | exact IHl].
  - apply HDict. induction items as [|[k x] items IHi]; constructor;
      [apply IH | exact IHi].
Qed.

End ValueInduction.

Lemma well_formed_list (l : list value) :
  well_formed (VList l) <-> Forall well_formed l.
Proof.
  induction l as [|x l IH].
  - split; [constructor | exact (fun _ => I)].
  - split.
    + intros (Hx & Hl). constructor; [exact Hx | apply IH, Hl].
    + intros H. inversion H; subst. split; [assumption | now apply IH].
Qed.

Lemma well_formed_dict (items : list (str * value)) :
  well_formed (VDict items)
  <-> NoDup (map fst items) /\ Forall (fun kv => well_formed (snd kv)) items.
Proof.
  simpl. apply and_iff_compat_l.
  induction items as [|kv items IH].
  - split; [constructor | exact (fun _ => I)].
  - split.
    + intros (Hx & Hl). constructor; [exact Hx | apply IH, Hl].
    + intros H. inversion H; subst. split; [assumption | now apply IH].
Qed.

(** *** Dicts *)

Lemma str_eqb_eq (a b : str) : str_eqb a b = true <-> a = b.
Proof.
  revert b. induction a as [|x a IH]; intros [|y b]; simpl;
    try (split; [discriminate | congruence]); [tauto|].
  rewrite andb_true_iff, N.eqb_eq, IH. split.
  - intros (-> & ->). reflexivity.
  - intros H. injection H as -> ->. auto.
Qed.

Lemma dict_set_fresh (d : list (str * value)) (k : str) (v : value) :
  ~ In k (map fst d) -> dict_set d k v = d ++ [(k, v)].
Proof.
  induction d as [|[k' v'] d IH]; simpl; intros H; [reflexivity|].
  destruct (str_eqb k' k) eqn:E.
  - apply str_eqb_eq in E. tauto.
  - rewrite IH by tauto. reflexivity.
Qed.

Lemma fold_dict_set (pairs acc : list (str * value)) :
  NoDup (map fst (acc ++ pairs)) ->
  fold_left (fun d kv => dict_set d (fst kv) (snd kv)) pairs acc
  = acc ++ pairs.
Proof.
  revert acc. induction pairs as [|[k v] pairs IH]; intros acc H; simpl.
  - now rewrite app_nil_r.
  - rewrite dict_set_fresh.
    + rewrite IH; rewrite <- app_assoc; [reflexivity | exact H].
    + rewrite map_app in H. simpl in H.
      apply NoDup_remove_2 in H. intros Hin. apply H.
      apply in_or_app. now left.
Qed.

(** A list of pairs with distinct keys is the dict made of it. *)
Lemma dict_of_pairs_distinct (pairs : list (str * value)) :
  NoDup (map fst pairs) -> dict_of_pairs pairs = pairs.
Proof. intros H. unfold dict_of_pairs. now rewrite fold_dict_set. Qed.

(** *** Whitespace and the first character of a value *)

Lemma skip_ws_spaces (n : nat) (s : str) :
  skip_ws (repeat SPACE n ++ s) = skip_ws s.
Proof. induction n as [|n IH]; [reflexivity | exact IH]. Qed.

Lemma skip_ws_indent (level : nat) (s : str) :
  skip_ws (newline_indent level ++ s) = skip_ws s.
Proof. unfold newline_indent. simpl. apply skip_ws_spaces. Qed.

Lemma value_start_facts (c : char) :
  value_start c = true ->
  is_ws c = false /\ (c =? RBRACKET)%N = false
  /\ (c =? RBRACE)%N = false /\ (c =? 0xFEFF)%N = false.
Proof.
  unfold value_start. intros H.
  repeat (apply orb_true_iff in H; destruct H as [H|H]);
    apply N.eqb_eq in H; subst; repeat split; reflexivity.
Qed.

Lemma skip_ws_start (c : char) (t : str) :
  value_start c = true -> skip_ws (c :: t) = c :: t.
Proof.
  intros H. apply value_start_facts in H. destruct H as (H & _).
  simpl. now rewrite H.
Qed.

Lemma encode_starts (level : nat) (v : value) :
  exists c t, encode level v = c :: t /\ value_start c = true.
Proof.
  destruct v as [|[|]|s|[|x l]|[|kv items]];
    eexists; eexists; (split; [reflexivity | reflexivity]).
Qed.

Lemma encode_length (level : nat) (v : value) : 1 <= length (encode level v).
Proof.
  destruct (encode_starts level v) as (c & t & -> & _). simpl. lia.
Qed.

(** *** The decoder, one step at a time *)

Lemma scan_once_quote (n : nat) (s : str) :
  scan_once (S n) (QUOTE :: s)
  = match scanstring s with
    | Some (content, rest) => Some (VStr content, rest)
    | None => None
    end.
Proof. reflexivity. Qed.

Lemma scan_once_bracket (n : nat) (s : str) :
  scan_once (S n) (LBRACKET :: s)
  = match skip_ws s with
    | d :: s2 =>
        if (d =? RBRACKET)%N then Some (VList [], s2)
        else
          match array_loop n (d :: s2) with
          | Some (values, rest) => Some (VList values, rest)
          | None => None
          end
    | [] => None
    end.
Proof. reflexivity. Qed.

Lemma scan_once_brace (n : nat) (s : str) :
  scan_once (S n) (LBRACE :: s)
  = match skip_ws s with
    | d :: s2 =>
        if (d =? RBRACE)%N then Some (VDict [], s2)
        else if (d =? QUOTE)%N then
          match object_loop n s2 with
          | Some (pairs, rest) => Some (VDict (dict_of_pairs pairs), rest)
          | None => None
          end
        else None
    | [] => None
    end.
Proof. reflexivity. Qed.

Lemma array_loop_step (n : nat) (s : str) :
  array_loop (S n) s
  = match scan_once n s with
    | Some (v, r) =>
        match skip_ws r with
        | c :: r1 =>
            if (c =? RBRACKET)%N then Some ([v], r1)
            else if (c =? COMMA)%N then
              match array_loop n (skip_ws r1) with
              | Some (values, rest) => Some (v :: values, rest)
              | None => None
              end
            else None
        | [] => None
        end
    | None => None
    end.
Proof. reflexivity. Qed.

Lemma object_loop_step (n : nat) (s : str) :
  object_loop (S n) s
  = match scanstring s with
    | Some (key, r) =>
        match skip_ws r with
        | c :: r1 =>
            if (c =? COLON)%N then
              match scan_once n (skip_ws r1) with
              | Some (v, r2) =>
                  match skip_ws r2 with
                  | d :: r3 =>
                      if (d =? RBRACE)%N then Some ([(key, v)], r3)
                      else if (d =? COMMA)%N then
                        match skip_ws r3 with
                        | q :: r4 =>
                            if (q =? QUOTE)%N then
                              match object_loop n r4 with
                              | Some (pairs, rest) =>
                                  Some ((key, v) :: pairs, rest)
                              | None => None
                              end
                            else None
                        | [] => None
                        end
                      else None
                  | [] => None
                  end
              | None => None
              end
            else None
        | [] => None
        end
    | None => None
    end.
Proof. reflexivity. Qed.

(** *** Lists and dicts *)

Lemma skip_ws_other (c : char) (t : str) :
  is_ws c = false -> skip_ws (c :: t) = c :: t.
Proof. intros H. simpl. now rewrite H. Qed.

Lemma join_two (sep p q : str) (ps : list str) :
  join sep (p :: q :: ps) = p ++ sep ++ join sep (q :: ps).
Proof. reflexivity. Qed.

Lemma join_starts (level : nat) (sep : str) (xs : list value) :
  xs <> [] ->
  exists c t,
    join sep (map (encode level) xs) = c :: t /\ value_start c = true.
Proof.
  destruct xs as [|x [|y ys]]; [congruence| |]; intros _;
    destruct (encode_starts level x) as (c & t & Hx & Hc).
  - exists c, t. simpl. auto.
  - exists c, (t ++ sep ++ join sep (map (encode level) (y :: ys))).
    simpl map. rewrite join_two, Hx. auto.
Qed.

Lemma item_text_app (level : nat) (kv : str * value) (tail : str) :
  item_text level kv ++ tail
  = QUOTE :: flat_map escape_char (fst kv)
      ++ QUOTE :: COLON :: SPACE :: encode (S level) (snd kv) ++ tail.
Proof.
  unfold item_text, encode_basestring. simpl.
  rewrite <- !app_assoc. reflexivity.
Qed.

Lemma item_text_length (level : nat) (kv : str * value) :
  length (encode (S level) (snd kv)) < length (item_text level kv).
Proof.
  unfold item_text, encode_basestring. simpl.
  rewrite !length_app. simpl. lia.
Qed.

Lemma items_start (level : nat) (items : list (str * value)) :
  items <> [] ->
  join (separator level) (map (item_text level) items)
  = QUOTE :: tl (join (separator level) (map (item_text level) items)).
Proof.
  destruct items as [|kv [|kv' items]]; [congruence| |]; intros _;
    simpl map; [simpl join | rewrite join_two];
    unfold item_text, encode_basestring; reflexivity.
Qed.

Lemma separator_length (level : nat) : 1 <= length (separator level).
Proof. unfold separator. simpl. lia. Qed.

Section Loops.

Variable level : nat.

(** The loop of [JSONArray] reads the items of a list back. *)
Lemma array_loop_encode (rest : str) (xs : list value) :
  Forall (reads_back level) xs -> xs <> [] ->
  forall fuel,
    length (join (separator level) (map (encode (S level)) xs)) < fuel ->
    array_loop fuel
      (join (separator level) (map (encode (S level)) xs)
         ++ newline_indent level ++ RBRACKET :: rest)
    = Some (xs, rest).
Proof.
  induction 1 as [|x xs Hx Hxs IH]; [congruence|]. intros _ fuel Hlen.
  destruct fuel as [|n]; [lia|].
  rewrite array_loop_step.
  destruct xs as [|y ys].
  - simpl map in *. simpl join in *.
    rewrite (Hx n) by lia. rewrite skip_ws_indent.
    rewrite skip_ws_other by reflexivity.
    rewrite N.eqb_refl. reflexivity.
  - simpl map in *. rewrite join_two in *.
    rewrite !length_app in Hlen.
    pose proof (encode_length (S level) x) as Hx1.
    rewrite <- !app_assoc. rewrite (Hx n) by lia.
    unfold separator at 1. rewrite <- app_comm_cons.
    rewrite skip_ws_other by reflexivity.
    replace (COMMA =? RBRACKET)%N with false by reflexivity.
    rewrite N.eqb_refl. rewrite skip_ws_indent.
    destruct (join_starts (S level) (separator level) (y :: ys))
      as (c & t & HJ & Hc); [discriminate|].
    simpl map in HJ.
    assert (Hskip : forall tail,
               skip_ws (join (separator level)
                          (encode (S level) y :: map (encode (S level)) ys)
                        ++ tail)
               = join (separator level)
                   (encode (S level) y :: map (encode (S level)) ys)
                 ++ tail).
    { intros tail. rewrite HJ, <- app_comm_cons.
      now apply skip_ws_start. }
    rewrite Hskip. rewrite IH; [reflexivity | discriminate |].
    pose proof (separator_length level).
    length_lia.
Qed.

(** The loop of [JSONObject] reads the items of a dict back. *)
Lemma object_loop_encode (rest : str) (items : list (str * value)) :
  Forall (fun kv => reads_back level (snd kv)) items -> items <> [] ->
  forall fuel,
    length (join (separator level) (map (item_text level) items)) < fuel ->
    object_loop fuel
      (tl (join (separator level) (map (item_text level) items)
             ++ newline_indent level ++ RBRACE :: rest))
    = Some (items, rest).
Proof.
  induction 1 as [|[k v] items Hv Hitems IH]; [congruence|].
  intros _ fuel Hlen.
  destruct fuel as [|n]; [lia|].
  rewrite object_loop_step.
  pose proof (item_text_length level (k, v)) as Hitem. simpl snd in Hitem.
  simpl snd in Hv.
  destruct (encode_starts (S level) v) as (c & t & Hc & Hstart).
  assert (Hskip : forall tail,
             skip_ws (encode (S level) v ++ tail)
             = encode (S level) v ++ tail).
  { intros tail. rewrite Hc, <- app_comm_cons. now apply skip_ws_start. }
  destruct items as [|kv items].
  - simpl map in *. simpl join in *.
    rewrite item_text_app. cbn [tl fst snd].
    rewrite scanstring_encode.
    rewrite skip_ws_other by reflexivity. rewrite N.eqb_refl.
    change (skip_ws (SPACE :: ?s)) with (skip_ws s).
    rewrite Hskip, (Hv n) by lia.
    rewrite skip_ws_indent, skip_ws_other by reflexivity.
    rewrite N.eqb_refl. reflexivity.
  - simpl map in *. rewrite join_two in *.
    rewrite !length_app in Hlen.
    rewrite <- !app_assoc. rewrite item_text_app.
    cbn [tl fst snd].
    rewrite scanstring_encode.
    rewrite skip_ws_other by reflexivity. rewrite N.eqb_refl.
    change (skip_ws (SPACE :: ?s)) with (skip_ws s).
    rewrite Hskip, (Hv n) by lia.
    unfold separator at 1. rewrite <- app_comm_cons.
    rewrite skip_ws_other by reflexivity.
    replace (COMMA =? RBRACE)%N with false by reflexivity.
    rewrite N.eqb_refl. rewrite skip_ws_indent.
    specialize (IH ltac:(discriminate) n). simpl map in IH.
    pose proof (items_start level (kv :: items) ltac:(discriminate)) as HJ.
    simpl map in HJ.
    remember (tl (join (separator level)
                    (item_text level kv :: map (item_text level) items)))
      as T eqn:HT.
    rewrite HJ in Hlen, IH |- *. rewrite <- app_comm_cons in IH |- *.
    cbn [tl] in IH.
    rewrite skip_ws_other by reflexivity. rewrite N.eqb_refl.
    rewrite IH; [reflexivity|].
    pose proof (separator_length level).
    length_lia.
Qed.

End Loops.

(** *** The round trip of a value *)

Lemma encode_list_eq (level : nat) (x : value) (xs : list value) :
  encode level (VList (x :: xs))
  = LBRACKET :: newline_indent (S level)
      ++ join (separator level) (map (encode (S level)) (x :: xs))
      ++ newline_indent level ++ [RBRACKET].
Proof. reflexivity. Qed.

Lemma encode_dict_eq (level : nat) (kv : str * value)
    (items : list (str * value)) :
  encode level (VDict (kv :: items))
  = LBRACE :: newline_indent (S level)
      ++ join (separator level) (map (item_text level) (kv :: items))
      ++ newline_indent level ++ [RBRACE].
Proof. reflexivity. Qed.

Lemma newline_indent_length (level : nat) :
  1 <= length (newline_indent level).
Proof. unfold newline_indent. simpl. lia. Qed.

(** The decoder reads a written value back and stops right after it, at
    every level of indentation, when the fuel is at least the length of
    the text. *)
Lemma scan_once_encode :
  forall v, well_formed v ->
  forall level fuel tail,
    length (encode level v) <= fuel ->
    scan_once fuel (encode level v ++ tail) = Some (v, tail).
Proof.
  induction v as [|b|s|l IH|items IH] using value_nested_ind;
    intros Hwf level fuel tail Hlen;
    (destruct fuel as [|n];
     [match type of Hlen with
      | length (encode ?lv ?x) <= 0 => pose proof (encode_length lv x)
      end; lia|]).
  - reflexivity.
  - destruct b; reflexivity.
  - change (encode level (VStr s) ++ tail)
      with (QUOTE :: (flat_map escape_char s ++ [QUOTE]) ++ tail).
    rewrite scan_once_quote, <- app_assoc.
    change ([QUOTE] ++ tail) with (QUOTE :: tail).
    now rewrite scanstring_encode.
  - destruct l as [|x xs]; [reflexivity|].
    apply well_formed_list in Hwf.
    assert (Hitems : Forall (reads_back level) (x :: xs)).
    { apply Forall_forall. intros y Hy fuel' tail'.
      rewrite Forall_forall in IH, Hwf. apply IH; [exact Hy | now apply Hwf]. }
    rewrite encode_list_eq in Hlen |- *.
    cbn [length] in Hlen. rewrite !length_app in Hlen.
    pose proof (newline_indent_length (S level)) as Hnl.
    rewrite <- app_comm_cons, scan_once_bracket.
    rewrite <- !app_assoc, skip_ws_indent.
    change ([RBRACKET] ++ tail) with (RBRACKET :: tail).
    destruct (join_starts (S level) (separator level) (x :: xs))
      as (c & t & HJ & Hc); [discriminate|].
    destruct (value_start_facts c Hc) as (_ & Hrb & _).
    pose proof (array_loop_encode level tail (x :: xs) Hitems
                  ltac:(discriminate) n) as Harr.
    rewrite HJ in Harr |- *. rewrite <- app_comm_cons in Harr |- *.
    rewrite skip_ws_start by exact Hc. rewrite Hrb.
    rewrite Harr; [reflexivity|].
    rewrite HJ in Hlen. length_lia.
  - destruct items as [|kv items]; [reflexivity|].
    apply well_formed_dict in Hwf. destruct Hwf as (Hkeys & Hwf).
    assert (Hitems : Forall (fun kv => reads_back level (snd kv))
                            (kv :: items)).
    { apply Forall_forall. intros y Hy fuel' tail'.
      rewrite Forall_forall in IH, Hwf. apply IH; [exact Hy | now apply Hwf]. }
    rewrite encode_dict_eq in Hlen |- *.
    cbn [length] in Hlen. rewrite !length_app in Hlen.
    pose proof (newline_indent_length (S level)) as Hnl.
    rewrite <- app_comm_cons, scan_once_brace.
    rewrite <- !app_assoc, skip_ws_indent.
    change ([RBRACE] ++ tail) with (RBRACE :: tail).
    pose proof (object_loop_encode level tail (kv :: items) Hitems
                  ltac:(discriminate) n) as Hobj.
    pose proof (items_start level (kv :: items) ltac:(discriminate)) as HJ.
    remember (tl (join (separator level)
                    (map (item_text level) (kv :: items)))) as T eqn:HT.
    rewrite HJ in Hlen, Hobj |- *. rewrite <- app_comm_cons in Hobj |- *.
    cbn [tl] in Hobj.
    rewrite skip_ws_other by reflexivity.
    replace (QUOTE =? RBRACE)%N with false by reflexivity.
    rewrite N.eqb_refl.
    rewrite Hobj; [|length_lia].
    now rewrite dict_of_pairs_distinct.
Qed.

(** [json.loads(json.dumps(v, ensure_ascii=False, indent=2)) == v] *)
Lemma loads_dumps (v : value) :
  well_formed v -> loads (dumps v) = Some v.
Proof.
  intros Hwf. unfold loads, dumps.
  destruct (encode_starts 0 v) as (c & t & Hv & Hc).
  destruct (value_start_facts c Hc) as (_ & _ & _ & Hbom).
  replace (startswith (encode 0 v) [0xFEFF%N]) with false
    by (rewrite Hv; simpl; now rewrite Hbom).
  replace (skip_ws (encode 0 v)) with (encode 0 v)
    by (rewrite Hv; symmetry; now apply skip_ws_start).
  pose proof (scan_once_encode v Hwf 0 (S (length (encode 0 v))) []) as H.
  rewrite app_nil_r in H. rewrite H by lia. reflexivity.
Qed.

(** *** The entries as values *)

Lemma well_formed_strings (l : list str) : well_formed (VList (map VStr l)).
Proof.
  apply well_formed_list. induction l; constructor; [exact I | assumption].
Qed.

Lemma well_formed_entry (e : entry) : well_formed (entry_value e).
Proof.
  apply well_formed_dict. split.
  - simpl. repeat constructor; simpl; intuition discriminate.
  - repeat constructor. apply well_formed_strings.
Qed.

Lemma well_formed_entries (entries : list entry) :
  well_formed (VList (map entry_value entries)).
Proof.
  apply well_formed_list.
  induction entries; constructor; [apply well_formed_entry | assumption].
Qed.

Lemma map_VStr_injective (l1 l2 : list str) :
  map VStr l1 = map VStr l2 -> l1 = l2.
Proof.
  revert l2. induction l1 as [|a l1 IH]; intros [|b l2] H;
    try discriminate; [reflexivity|].
  simpl in H. injection H as -> H. f_equal. now apply IH.
Qed.

(** No field is dropped when an entry is seen as a dict. *)
Lemma entry_value_injective (e1 e2 : entry) :
  entry_value e1 = entry_value e2 -> e1 = e2.
Proof.
  destruct e1, e2. unfold entry_value, entry_items. simpl.
  intros H. injection H as -> -> -> -> Hm ->.
  apply map_VStr_injective in Hm. now subst.
Qed.

Lemma entry_values_injective (l1 l2 : list entry) :
  map entry_value l1 = map entry_value l2 -> l1 = l2.
Proof.
  revert l2. induction l1 as [|a l1 IH]; intros [|b l2] H;
    try discriminate; [reflexivity|].
  cbn [map] in H.
  remember (entry_value a) as va eqn:Eva.
  remember (entry_value b) as vb eqn:Evb.
  injection H as Ha H. subst.
  apply entry_value_injective in Ha. f_equal; [exact Ha | now apply IH].
Qed.

End JsonFacts.

(* ===================================================================== *)
(** ** Serialization *)
(* ===================================================================== *)

(** C9.  Reading back the text that [save_to_json] writes for a list of
    entries gives a list of dicts equal to the one written: the same
    entries in the same order, each with its six fields.  Two lists of
    entries that give the same list of dicts are the same list, so no
    field is lost on the way. *)
Theorem json_round_trip (entries : list entry) :
  Json.loads (save_to_json entries) = Some (VList (map entry_value entries))
  /\ (forall entries' : list entry,
         Json.loads (save_to_json entries')
         = Json.loads (save_to_json entries) ->
         entries' = entries).
Proof.
  assert (H : forall l, Json.loads (save_to_json l)
                        = Some (VList (map entry_value l))).
  { intros l. apply JsonFacts.loads_dumps, JsonFacts.well_formed_entries. }
  split; [apply H|].
  intros entries' E. rewrite !H in E. injection E as E.
  now apply JsonFacts.entry_values_injective.
Qed.

(** Two entries, one with a quote, a backslash, a tab and a control
    character in its text, and one without glosses. *)
Example json_round_trip_example :
  Json.loads
    (save_to_json
       [entry_yi;
        mkEntry (lit "a") [] [QUOTE; BACKSLASH] [TAB; 1%N; SLASH] [] true])
  = Some (VList
            (map entry_value
               [entry_yi;
                mkEntry (lit "a") [] [QUOTE; BACKSLASH] [TAB; 1%N; SLASH]
                        [] true])).
Proof. vm_compute. reflexivity. Qed.

(* ===================================================================== *)
(** ** Further facts about the string operations *)
(* ===================================================================== *)

Module PyStrMore.

(** *** Where the characters of a result come from *)

Lemma in_strip (c : char) (s : str) : In c (strip s) -> In c s.
Proof.
  intros H. destruct (strip_split s) as (w1 & w2 & Hs & _).
  rewrite Hs. apply in_or_app. right. apply in_or_app. now left.
Qed.

Lemma in_re_sub_brackets (c : char) (s : str) :
  (In c (re_sub_brackets s) -> In c s) /\ (In c (skip_match s) -> In c s).
Proof.
  induction s as [|x s (IH1 & IH2)]; simpl; [tauto|].
  split.
  - destruct ((x =? LBRACKET)%N && closes s); simpl; tauto.
  - destruct (x =? RBRACKET)%N; tauto.
Qed.

Lemma in_slice (c : char) (s : str) (start stop : Z) :
  In c (slice s start stop) -> In c s.
Proof.
  unfold slice. intros H.
  rewrite <- (firstn_skipn (Z.to_nat (clamp_index (Z.of_nat (length s)) start)) s).
  apply in_or_app. right.
  match type of H with
  | In c (firstn ?n ?l) => rewrite <- (firstn_skipn n l)
  end.
  apply in_or_app. now left.
Qed.

Lemma in_split_piece (sep : char) (s : str) :
  forall (m : option nat) (p : str) (c : char),
    In p (split sep m s) -> In c p -> In c s.
Proof.
  induction s as [|x s IH]; intros m p c Hp Hc; simpl in Hp.
  - destruct Hp as [<-|[]]. exact Hc.
  - assert (Hcons : In p (cons_piece x (split sep m s)) -> In c (x :: s)).
    { intros H. destruct (split sep m s) as [|q qs] eqn:E; simpl in H.
      - destruct H as [<-|[]]. destruct Hc as [<-|[]]. now left.
      - destruct H as [<-|H].
        + destruct Hc as [<-|Hc]; [now left|]. right.
          apply (IH m q c); [rewrite E; now left | exact Hc].
        + right. apply (IH m p c); [rewrite E; now right | exact Hc]. }
    destruct (x =? sep)%N, m as [[|n]|]; try (now apply Hcons);
      (destruct Hp as [<-|Hp]; [destruct Hc | right; eapply IH; eassumption]).
Qed.

Lemma in_join (sep : str) (ps : list str) (c : char) :
  In c (join sep ps) -> In c sep \/ exists p, In p ps /\ In c p.
Proof.
  induction ps as [|p [|q ps] IH]; simpl; [tauto| |].
  - intros H. right. exists p. auto.
  - intros H. apply in_app_or in H. destruct H as [H|H].
    + right. exists p. auto.
    + apply in_app_or in H. destruct H as [H|H]; [now left|].
      destruct (IH H) as [Hs|(r & Hr & Hc)]; [now left|].
      right. exists r. split; [now right | exact Hc].
Qed.

(** *** The pieces of a split *)

(** Without a limit, no piece holds the separator. *)
Lemma split_piece_no_sep (sep : char) (s : str) (p : str) :
  In p (split sep None s) -> ~ In sep p.
Proof.
  revert p. induction s as [|x s IH]; intros p Hp; simpl in Hp.
  - destruct Hp as [<-|[]]. tauto.
  - destruct (N.eqb_spec x sep) as [->|Hx].
    + destruct Hp as [<-|Hp]; [tauto | now apply IH].
    + destruct (split sep None s) as [|q qs] eqn:E; simpl in Hp.
      * destruct Hp as [<-|[]]. intros [H|[]]. congruence.
      * destruct Hp as [<-|Hp].
        -- intros [H|H]; [congruence|]. apply (IH q); [now left | exact H].
        -- apply IH. now right.
Qed.

(** Splitting what was joined gives the pieces back. *)
Lemma split_join_pieces (sep : char) (ps : list str) :
  ps <> [] -> Forall (fun p => ~ In sep p) ps ->
  split sep None (join [sep] ps) = ps.
Proof.
  induction ps as [|p [|q ps] IH]; intros Hne Hall; [congruence| |].
  - simpl. inversion Hall; subst. now apply split_no_sep.
  - inversion Hall; subst. rewrite join_cons by discriminate.
    change (p ++ [sep] ++ join [sep] (q :: ps))
      with (p ++ sep :: join [sep] (q :: ps)).
    rewrite split_app_sep_all by assumption.
    rewrite IH; [reflexivity | discriminate | assumption].
Qed.

(** The first piece is the start of the string, and every piece is a
    stretch of it. *)
Lemma split_head_prefix (sep : char) (s : str) :
  forall (p : str) (ps : list str),
    split sep None s = p :: ps -> exists b, s = p ++ b.
Proof.
  induction s as [|x s IH]; intros p ps H; simpl in H.
  - injection H as <- _. now exists [].
  - destruct (x =? sep)%N.
    + injection H as <- _. now exists (x :: s).
    + destruct (split sep None s) as [|q qs] eqn:E; simpl in H.
      * injection H as <- _. exfalso. exact (split_nonempty _ _ _ E).
      * injection H as <- _. destruct (IH q qs eq_refl) as (b & ->).
        now exists b.
Qed.

Lemma split_piece_infix (sep : char) (s : str) :
  forall p, In p (split sep None s) -> exists a b, s = a ++ p ++ b.
Proof.
  induction s as [|x s IH]; intros p Hp; simpl in Hp.
  - destruct Hp as [<-|[]]. now exists [], [].
  - destruct (x =? sep)%N.
    + destruct Hp as [<-|Hp]; [now exists [], (x :: s)|].
      destruct (IH p Hp) as (a & b & ->). now exists (x :: a), b.
    + destruct (split sep None s) as [|q qs] eqn:E; simpl in Hp.
      * destruct Hp as [<-|[]]. exfalso. exact (split_nonempty _ _ _ E).
      * destruct Hp as [<-|Hp].
        -- destruct (split_head_prefix _ _ _ _ E) as (b & ->).
           now exists [], b.
        -- destruct (IH p (or_intror Hp)) as (a & b & ->).
           now exists (x :: a), b.
Qed.

(** *** Trimming *)

(** A string that starts and ends with characters that are not whitespace
    is left as it is. *)
Lemma strip_fixed (s t v : str) (c d : char) :
  s = c :: t -> s = v ++ [d] ->
  isspace c = false -> isspace d = false -> strip s = s.
Proof.
  intros Hc Hd Ec Ed. unfold strip, rstrip.
  assert (Hl : lstrip s = s) by (rewrite Hc; simpl; now rewrite Ec).
  rewrite Hl.
  assert (Hr : rev s = d :: rev v) by (rewrite Hd, rev_app_distr; reflexivity).
  rewrite Hr. simpl lstrip. rewrite Ed, <- Hr. apply rev_involutive.
Qed.

Lemma strip_idempotent (s : str) : strip (strip s) = strip s.
Proof.
  destruct (strip s) as [|c t] eqn:E; [reflexivity|].
  destruct (exists_last (l := c :: t) ltac:(discriminate)) as (v & d & Hv).
  apply (strip_fixed (c :: t) t v c d); [reflexivity | exact Hv | |].
  - exact (strip_head _ _ _ E).
  - rewrite Hv in E. exact (strip_last _ _ _ E).
Qed.

Lemma strip_infix (s : str) : exists a b, s = a ++ strip s ++ b.
Proof. destruct (strip_split s) as (a & b & H & _). eauto. Qed.

Lemma slice_1_m1_infix (s : str) : exists a b, s = a ++ slice s 1 (-1) ++ b.
Proof.
  destruct s as [|c t]; [now exists [], []|].
  destruct t as [|d t] using rev_ind.
  - now exists [c], [].
  - exists [c], [d]. unfold slice, clamp_index.
    replace (1 <? 0)%Z with false by reflexivity.
    replace (-1 <? 0)%Z with true by reflexivity.
    cbv zeta. simpl length. rewrite length_app. simpl length.
    replace (Z.to_nat (Z.min 1 (Z.of_nat (S (length t + 1))))) with 1 by lia.
    replace (Z.to_nat
               (Z.max 0 (-1 + Z.of_nat (S (length t + 1)))
                - Z.min 1 (Z.of_nat (S (length t + 1)))))
      with (length t + 0) by lia.
    simpl skipn. rewrite firstn_app_2. simpl. now rewrite app_nil_r.
Qed.

(** *** Bracketed spans *)

Lemma closes_app (u b : str) : closes u = true -> closes (u ++ b) = true.
Proof.
  unfold closes.
  induction u as [|x u IH]; simpl; [discriminate|].
  destruct (x =? RBRACKET)%N; [reflexivity|].
  destruct (x =? NEWLINE)%N; [discriminate | exact IH].
Qed.

Lemma has_span_infix (a g b : str) : has_span g -> has_span (a ++ g ++ b).
Proof.
  intros (a' & u & -> & Hu). exists (a ++ a'), (u ++ b). split.
  - rewrite <- !app_assoc. reflexivity.
  - now apply closes_app.
Qed.

(** When nothing closes after the start of a text, nothing closes after
    the start of what the substitution leaves of it. *)
Lemma after_close_re_sub (s : str) :
  after_close s = None -> after_close (re_sub_brackets s) = None.
Proof.
  induction s as [|x s IH]; simpl; [reflexivity|].
  destruct (N.eqb_spec x RBRACKET) as [->|Hr]; [discriminate|].
  destruct (N.eqb_spec x NEWLINE) as [->|Hn].
  - intros _. reflexivity.
  - intros H. unfold closes. rewrite H, andb_false_r. simpl.
    destruct (N.eqb_spec x RBRACKET) as [|_]; [contradiction|].
    destruct (N.eqb_spec x NEWLINE) as [|_]; [contradiction|].
    now apply IH.
Qed.

(** What the substitution leaves holds no span. *)
Lemma re_sub_brackets_no_span (s : str) :
  ~ has_span (re_sub_brackets s) /\ ~ has_span (skip_match s).
Proof.
  induction s as [|x s (IH1 & IH2)].
  - split; intros (a & u & H & _); destruct a; discriminate.
  - split; simpl.
    + destruct ((x =? LBRACKET)%N && closes s) eqn:E; [exact IH2|].
      intros (a & u & H & Hu). destruct a as [|y a]; simpl in H.
      * injection H as -> <-. rewrite N.eqb_refl in E. simpl in E.
        unfold closes in E, Hu.
        destruct (after_close s) eqn:Es; [discriminate|].
        now rewrite (after_close_re_sub _ Es) in Hu.
      * injection H as _ H. apply IH1. now exists a, u.
    + destruct (x =? RBRACKET)%N; assumption.
Qed.

End PyStrMore.

Import PyStrMore.

(* ===================================================================== *)
(** ** Further properties of the line parser *)
(* ===================================================================== *)

Section ParserMore.

Variable pypinyin : str -> Style -> result (list (list str)).

(** A gloss is a trimmed piece, not empty, of the text between the outer
    slashes. *)
Lemma in_meanings_of (rest g : str) :
  In g (meanings_of rest) ->
  exists m,
    g = strip m /\ strip m <> []
    /\ In m (split SLASH None (slice (strip (re_sub_brackets rest)) 1 (-1))).
Proof.
  unfold meanings_of.
  destruct (startswith _ [SLASH] && endswith _ [SLASH]); [|intros []].
  intros H. apply in_map_iff in H. destruct H as (m & <- & Hm).
  apply filter_In in Hm. destruct Hm as (Hm & Ht).
  exists m. split; [reflexivity|]. split; [|exact Hm].
  intros E. rewrite E in Ht. discriminate.
Qed.

Lemma no_whitespace_no_space (s : str) : no_whitespace s -> ~ In SPACE s.
Proof.
  unfold no_whitespace. intros H Hin.
  rewrite forallb_forall in H. specialize (H SPACE Hin). discriminate.
Qed.

Lemma first_readings_raise (l : list (list str)) (e : exception) :
  first_readings l = Raise e -> e = IndexError /\ In [] l.
Proof.
  induction l as [|item l IH]; simpl; [discriminate|].
  destruct item as [|reading item]; simpl.
  - intros H. injection H as <-. auto.
  - destruct (first_readings l) as [texts|e']; simpl; [discriminate|].
    intros H. injection H as ->. destruct (IH eq_refl) as (-> & Hin). auto.
Qed.

Lemma first_readings_kept (l : list (list str)) :
  Forall (fun item => item <> []) l ->
  first_readings l = Ok (kept_readings l).
Proof.
  unfold kept_readings.
  induction 1 as [|item l Hitem _ IH]; [reflexivity|].
  destruct item as [|reading item]; [congruence|].
  simpl. rewrite IH. simpl. destruct (truthy reading); reflexivity.
Qed.

(** A fault of a transliteration function is a fault of pypinyin, or the
    [IndexError] of an empty item in what pypinyin returned. *)
Lemma transliteration_raise (style : Style) (t : str) (e : exception) :
  (style = TONE /\ get_pinyin_from_characters pypinyin t = Raise e)
  \/ (style = BOPOMOFO /\ get_zhuyin_from_characters pypinyin t = Raise e) ->
  t <> []
  /\ (pypinyin t style = Raise e
      \/ exists l, pypinyin t style = Ok l /\ In [] l /\ e = IndexError).
Proof.
  intros H.
  assert (Hgen : (if negb (truthy t) then Ok []
                  else readings <- pypinyin t style ;;
                       items <- first_readings readings ;;
                       Ok (join [SPACE] items)) = Raise e).
  { destruct H as [(-> & H)|(-> & H)]; exact H. }
  clear H. destruct t as [|c t]; [discriminate|]. simpl in Hgen.
  split; [discriminate|].
  destruct (pypinyin (c :: t) style) as [l|e'] eqn:E; simpl in Hgen.
  - right. exists l. split; [reflexivity|].
    destruct (first_readings l) as [texts|e'] eqn:El; simpl in Hgen;
      [discriminate|].
    injection Hgen as ->. destruct (first_readings_raise _ _ El). auto.
  - left. injection Hgen as ->. reflexivity.
Qed.

End ParserMore.

(** X1.  Every gloss of an entry is not empty, has no whitespace at either
    end (trimming it changes nothing) and holds no slash. *)
Theorem glosses_are_trimmed_pieces
    (pypinyin : str -> Style -> result (list (list str)))
    (line : str) (e : entry) (g : str) :
  parse_cc_cedict_line pypinyin line = Ok (Some e) ->
  In g (meaning e) ->
  g <> [] /\ strip g = g /\ ~ In SLASH g.
Proof.
  intros H Hg.
  destruct (parse_entry_inv _ _ _ H) as (rest & _ & _ & _ & _ & _ & Hm & _).
  rewrite Hm in Hg. apply in_meanings_of in Hg.
  destruct Hg as (m & -> & Hne & Hm').
  split; [exact Hne|]. split; [apply strip_idempotent|].
  intros Hin. apply in_strip in Hin.
  exact (split_piece_no_sep _ _ _ Hm' Hin).
Qed.

Lemma glosses_are_trimmed_pieces_witness :
  lit "a (article)" <> []
  /\ strip (lit "a (article)") = lit "a (article)"
  /\ ~ In SLASH (lit "a (article)").
Proof.
  apply (glosses_are_trimmed_pieces echo_pinyin
           (YI ++ lit " " ++ YI ++ lit " [yi4] / one //  a (article) /")
           (mkEntry YI YI YI YI [lit "one"; lit "a (article)"] false)).
  - reflexivity.
  - right. left. reflexivity.
Defined.

(** X2.  The parser invents no text: every character of the traditional
    headword, of the simplified headword and of each gloss is a character
    of the line. *)
Theorem fields_come_from_the_line
    (pypinyin : str -> Style -> result (list (list str)))
    (line : str) (e : entry) (c : char) :
  parse_cc_cedict_line pypinyin line = Ok (Some e) ->
  (In c (traditional e) -> In c line)
  /\ (In c (simplified e) -> In c line)
  /\ (forall g, In g (meaning e) -> In c g -> In c line).
Proof.
  intros H.
  destruct (parse_entry_inv _ _ _ H) as (rest & _ & _ & Hparts & _ & _ & Hm & _).
  destruct (split_three_inv _ _ _ _ _ Hparts) as (Hline & _).
  assert (Hpart : forall part,
             (part = traditional e \/ part = simplified e \/ part = rest) ->
             In c part -> In c line).
  { intros part Hp Hc. apply in_strip. rewrite Hline.
    destruct Hp as [-> | [-> | ->]].
    - apply in_or_app. now left.
    - apply in_or_app. right. right. apply in_or_app. now left.
    - apply in_or_app. right. right. apply in_or_app. right. now right. }
  split; [apply Hpart; auto|]. split; [apply Hpart; auto|].
  intros g Hg Hc. apply (Hpart rest); [auto|].
  rewrite Hm in Hg. apply in_meanings_of in Hg.
  destruct Hg as (m & -> & _ & Hm').
  apply in_strip in Hc.
  apply (proj1 (in_re_sub_brackets c rest)), in_strip.
  apply (in_slice c _ 1 (-1)).
  exact (in_split_piece _ _ _ _ _ Hm' Hc).
Qed.

Lemma fields_come_from_the_line_witness :
  (In 0x4E00%N (traditional entry_yi) -> In 0x4E00%N line_yi)
  /\ (In 0x4E00%N (simplified entry_yi) -> In 0x4E00%N line_yi)
  /\ (forall g, In g (meaning entry_yi) -> In 0x4E00%N g ->
                In 0x4E00%N line_yi).
Proof.
  apply (fields_come_from_the_line echo_pinyin line_yi entry_yi).
  reflexivity.
Defined.

(** X3.  The parser skips a line exactly when the line is empty after
    trimming, or begins with [#] as given, or has fewer than three parts
    after trimming; so whether a line is skipped does not depend on
    pypinyin. *)
Theorem skip_exactly_when
    (pypinyin : str -> Style -> result (list (list str))) (line : str) :
  parse_cc_cedict_line pypinyin line = Ok None
  <-> (strip line = [] \/ startswith line [HASH] = true
       \/ length (split SPACE (Some 2) (strip line)) < 3).
Proof.
  split.
  - intros H.
    destruct (list_eq_dec N.eq_dec (strip line) []) as [He|Hne]; [now left|].
    destruct (startswith line [HASH]) eqn:Hhash; [right; now left|].
    destruct (length (split SPACE (Some 2) (strip line)) <? 3) eqn:Hlen.
    + right. right. now apply Nat.ltb_lt.
    + exfalso.
      destruct (parts_three line Hlen) as (t & s & rest & Hparts).
      rewrite (parse_three pypinyin line t s rest Hne Hhash Hparts) in H.
      destruct (get_pinyin_from_characters pypinyin t); simpl in H;
        [|discriminate].
      destruct (get_zhuyin_from_characters pypinyin t); discriminate.
  - intros [H|[H|H]].
    + unfold parse_cc_cedict_line. now rewrite H.
    + unfold parse_cc_cedict_line. now rewrite H, orb_true_r.
    + now apply parse_short.
Qed.

(** Where a fault of the parser comes from. *)
Lemma parse_raise_source
    (pypinyin : str -> Style -> result (list (list str)))
    (line : str) (e : exception) :
  parse_cc_cedict_line pypinyin line = Raise e ->
  exists t s rest style,
    split SPACE (Some 2) (strip line) = [t; s; rest]
    /\ t <> []
    /\ (pypinyin t style = Raise e
        \/ exists l, pypinyin t style = Ok l /\ In [] l /\ e = IndexError).
Proof.
  intros H.
  destruct (list_eq_dec N.eq_dec (strip line) []) as [He|Hne].
  { unfold parse_cc_cedict_line in H. rewrite He in H. discriminate. }
  destruct (startswith line [HASH]) eqn:Hhash.
  { unfold parse_cc_cedict_line in H. rewrite Hhash, orb_true_r in H.
    discriminate. }
  destruct (length (split SPACE (Some 2) (strip line)) <? 3) eqn:Hlen.
  { apply Nat.ltb_lt in Hlen. rewrite (parse_short pypinyin line Hlen) in H.
    discriminate. }
  destruct (parts_three line Hlen) as (t & s & rest & Hparts).
  rewrite (parse_three pypinyin line t s rest Hne Hhash Hparts) in H.
  exists t, s, rest.
  destruct (get_pinyin_from_characters pypinyin t) as [p|e1] eqn:Ep;
    simpl in H.
  - destruct (get_zhuyin_from_characters pypinyin t) as [z|e2] eqn:Ez;
      simpl in H; [discriminate|].
    injection H as ->. exists BOPOMOFO. split; [exact Hparts|].
    apply (transliteration_raise pypinyin BOPOMOFO t e). right. auto.
  - injection H as ->. exists TONE. split; [exact Hparts|].
    apply (transliteration_raise pypinyin TONE t e). left. auto.
Qed.

(** X4.  When the parser raises, the line has its three parts and the
    fault is one of the transliteration of the traditional headword: what
    pypinyin raised on it, or the [IndexError] of an empty item in what
    pypinyin returned.  Brackets and glosses never make it raise. *)
Theorem parse_raises_only_through_pypinyin
    (pypinyin : str -> Style -> result (list (list str)))
    (line : str) (e : exception) :
  parse_cc_cedict_line pypinyin line = Raise e ->
  exists t s rest style,
    split SPACE (Some 2) (strip line) = [t; s; rest]
    /\ t <> []
    /\ (pypinyin t style = Raise e
        \/ exists l, pypinyin t style = Ok l /\ In [] l /\ e = IndexError).
Proof. apply parse_raise_source. Qed.

Lemma parse_raises_only_through_pypinyin_witness :
  exists t s rest style,
    split SPACE (Some 2) (strip (lit "c! d /y/")) = [t; s; rest]
    /\ t <> []
    /\ (failing_pinyin t style = Raise (OracleError (lit "no reading"))
        \/ exists l, failing_pinyin t style = Ok l /\ In [] l
                     /\ OracleError (lit "no reading") = IndexError).
Proof.
  apply (parse_raises_only_through_pypinyin failing_pinyin (lit "c! d /y/")).
  reflexivity.
Defined.

Section WellFormedLine.

Variable pypinyin : str -> Style -> result (list (list str)).

Lemma join_no_bracket (glosses : list str) :
  Forall clean_gloss glosses -> ~ In LBRACKET (join [SLASH] glosses).
Proof.
  intros Hall Hin. apply in_join in Hin.
  destruct Hin as [[H|[]]|(g & Hg & Hc)]; [discriminate|].
  rewrite Forall_forall in Hall. destruct (Hall g Hg) as (_ & _ & _ & Hb).
  exact (Hb Hc).
Qed.

(** The glosses written between slashes are read back. *)
Lemma meanings_of_written (P : str) (glosses : list str) :
  ~ In RBRACKET P -> ~ In NEWLINE P -> Forall clean_gloss glosses ->
  meanings_of (LBRACKET :: P ++ RBRACKET :: SPACE :: SLASH
                 :: join [SLASH] glosses ++ [SLASH])
  = glosses.
Proof.
  intros Hr Hn Hall. unfold meanings_of.
  pose proof (re_sub_brackets_span [] P
                (SPACE :: SLASH :: join [SLASH] glosses ++ [SLASH])
                (fun H => H) Hr Hn) as Hspan.
  cbn [app] in Hspan. rewrite Hspan. clear Hspan.
  rewrite re_sub_brackets_no_bracket.
  2:{ intros [H|[H|H]]; try discriminate.
      apply in_app_or in H. destruct H as [H|[H|[]]]; [|discriminate].
      exact (join_no_bracket glosses Hall H). }
  assert (Hstrip : strip (SPACE :: SLASH :: join [SLASH] glosses ++ [SLASH])
                   = SLASH :: join [SLASH] glosses ++ [SLASH]).
  { change (SPACE :: SLASH :: join [SLASH] glosses ++ [SLASH])
      with ([SPACE] ++ SLASH :: join [SLASH] glosses ++ [SLASH]).
    unfold strip. rewrite lstrip_blank_app by reflexivity.
    apply (strip_fixed _ (join [SLASH] glosses ++ [SLASH])
             (SLASH :: join [SLASH] glosses) SLASH SLASH); reflexivity. }
  rewrite Hstrip.
  replace (startswith (SLASH :: join [SLASH] glosses ++ [SLASH]) [SLASH]
           && endswith (SLASH :: join [SLASH] glosses ++ [SLASH]) [SLASH])
    with true.
  2:{ symmetry. apply slash_bracketing. split.
      - eexists. reflexivity.
      - exists (SLASH :: join [SLASH] glosses). reflexivity. }
  rewrite slice_1_m1. simpl tl. rewrite removelast_last.
  assert (Hkeep : forall l, Forall clean_gloss l ->
             map strip (filter (fun m => truthy (strip m)) l) = l).
  { induction 1 as [|g l (Hne & Hs & _) _ IH]; [reflexivity|].
    simpl. rewrite Hs. destruct g; [congruence|]. simpl.
    rewrite Hs. f_equal. exact IH. }
  destruct glosses as [|g glosses]; [reflexivity|].
  rewrite split_join_pieces; [now apply Hkeep | discriminate |].
  eapply Forall_impl; [|exact Hall]. intros a (_ & _ & H & _). exact H.
Qed.

End WellFormedLine.

(** X5.  A line written in the CC-CEDICT format is read back field by
    field: with headwords that hold no space (the traditional one not
    empty, not starting with whitespace or [#]), a romanization without
    closing bracket or newline, and glosses that are not empty, trimmed
    and free of slashes and opening brackets, the entry has those
    headwords and exactly those glosses, in order. *)
Theorem parse_reads_format_back
    (pypinyin : str -> Style -> result (list (list str)))
    (T S P : str) (glosses : list str) (pin zhu : str) :
  T <> [] -> no_whitespace T -> startswith T [HASH] = false ->
  ~ In SPACE S ->
  ~ In RBRACKET P -> ~ In NEWLINE P ->
  Forall clean_gloss glosses ->
  get_pinyin_from_characters pypinyin T = Ok pin ->
  get_zhuyin_from_characters pypinyin T = Ok zhu ->
  parse_cc_cedict_line pypinyin (cedict_line T S P glosses)
  = Ok (Some (mkEntry T S pin zhu glosses
                      ((4 <=? len T) || (4 <=? len S)))).
Proof.
  intros Hne Hws Hhash HS Hr Hn Hall Hp Hz.
  destruct T as [|c T']; [congruence|].
  assert (Hc : isspace c = false).
  { unfold no_whitespace in Hws. simpl in Hws.
    apply andb_true_iff in Hws. destruct Hws as (Hws & _).
    now apply negb_true_iff in Hws. }
  assert (Hstrip : strip (cedict_line (c :: T') S P glosses)
                   = cedict_line (c :: T') S P glosses).
  { apply (strip_fixed _
             (T' ++ SPACE :: S ++ SPACE :: LBRACKET :: P
                ++ RBRACKET :: SPACE :: SLASH :: join [SLASH] glosses
                ++ [SLASH])
             ((c :: T') ++ SPACE :: S ++ SPACE :: LBRACKET :: P
                ++ RBRACKET :: SPACE :: SLASH :: join [SLASH] glosses)
             c SLASH); [reflexivity | | exact Hc | reflexivity].
    unfold cedict_line. rewrite <- !app_assoc. simpl.
    repeat (rewrite <- ?app_assoc; simpl; f_equal). }
  rewrite (parse_three pypinyin _ (c :: T') S
             (LBRACKET :: P ++ RBRACKET :: SPACE :: SLASH
                :: join [SLASH] glosses ++ [SLASH])).
  - rewrite Hp, Hz. simpl. now rewrite meanings_of_written.
  - rewrite Hstrip. discriminate.
  - simpl in Hhash |- *. exact Hhash.
  - rewrite Hstrip. apply split_three; [|exact HS].
    now apply no_whitespace_no_space.
Qed.

Lemma parse_reads_format_back_witness :
  parse_cc_cedict_line echo_pinyin
    (cedict_line YIFANFENGSHUN_T YIFANFENGSHUN_S (lit "yi1 fan1 feng1 shun4")
       [lit "smooth sailing"; lit "plain sailing"])
  = Ok (Some (mkEntry YIFANFENGSHUN_T YIFANFENGSHUN_S
                [0x4E00; 32; 0x5E06; 32; 0x98A8; 32; 0x9806]%N
                [0x4E00; 32; 0x5E06; 32; 0x98A8; 32; 0x9806]%N
                [lit "smooth sailing"; lit "plain sailing"]
                ((4 <=? len YIFANFENGSHUN_T) || (4 <=? len YIFANFENGSHUN_S)))).
Proof.
  apply (parse_reads_format_back echo_pinyin); try reflexivity;
    try discriminate.
  - vm_compute. intuition discriminate.
  - vm_compute. intuition discriminate.
  - vm_compute. intuition discriminate.
  - repeat constructor; vm_compute; intuition discriminate.
Defined.

(** X6.  No gloss of an entry holds a bracketed span: every opening
    bracket with a closing bracket after it on the same line is removed
    from the remainder, also inside the glosses, before they are cut. *)
Theorem glosses_hold_no_bracketed_span
    (pypinyin : str -> Style -> result (list (list str)))
    (line : str) (e : entry) (g : str) :
  parse_cc_cedict_line pypinyin line = Ok (Some e) ->
  In g (meaning e) -> ~ has_span g.
Proof.
  intros H Hg Hspan.
  destruct (parse_entry_inv _ _ _ H) as (rest & _ & _ & _ & _ & _ & Hm & _).
  rewrite Hm in Hg. apply in_meanings_of in Hg.
  destruct Hg as (m & -> & _ & Hm').
  destruct (strip_infix m) as (a1 & b1 & E1).
  destruct (split_piece_infix _ _ _ Hm') as (a2 & b2 & E2).
  destruct (slice_1_m1_infix (strip (re_sub_brackets rest)))
    as (a3 & b3 & E3).
  destruct (strip_infix (re_sub_brackets rest)) as (a4 & b4 & E4).
  apply (proj1 (re_sub_brackets_no_span rest)).
  rewrite E4. apply has_span_infix.
  rewrite E3. apply has_span_infix.
  rewrite E2. apply has_span_infix.
  rewrite E1. now apply has_span_infix.
Qed.

Lemma glosses_hold_no_bracketed_span_witness :
  ~ has_span (lit "see also x").
Proof.
  apply (glosses_hold_no_bracketed_span echo_pinyin
           (lit "a b [yi1] /see also x[yi1]/one/")
           (mkEntry (lit "a") (lit "b") (lit "a") (lit "a")
                    [lit "see also x"; lit "one"] false)).
  - reflexivity.
  - left. reflexivity.
Defined.

(** X7.  When pypinyin returns items that are not empty and whose first
    readings hold no space, the pinyin and the zhuyin are the first
    readings that are not empty, joined by single spaces: cutting the text
    at its spaces gives those readings back, one token each. *)
Theorem transliteration_is_space_separated
    (pypinyin : str -> Style -> result (list (list str)))
    (characters : str) (tone bopomofo : list (list str)) :
  characters <> [] ->
  pypinyin characters TONE = Ok tone ->
  pypinyin characters BOPOMOFO = Ok bopomofo ->
  Forall (fun item => item <> [] /\ ~ In SPACE (hd [] item))
         (tone ++ bopomofo) ->
  exists pin zhu,
    get_pinyin_from_characters pypinyin characters = Ok pin
    /\ get_zhuyin_from_characters pypinyin characters = Ok zhu
    /\ (kept_readings tone <> [] ->
        split SPACE None pin = kept_readings tone)
    /\ (kept_readings bopomofo <> [] ->
        split SPACE None zhu = kept_readings bopomofo)
    /\ (kept_readings tone = [] -> pin = [])
    /\ (kept_readings bopomofo = [] -> zhu = []).
Proof.
  intros Hne Ht Hb Hall.
  assert (Hsplit : forall l,
             Forall (fun item => item <> [] /\ ~ In SPACE (hd [] item)) l ->
             first_readings l = Ok (kept_readings l)
             /\ (kept_readings l <> [] ->
                 split SPACE None (join [SPACE] (kept_readings l))
                 = kept_readings l)).
  { intros l Hl. split.
    - apply first_readings_kept. eapply Forall_impl; [|exact Hl].
      intros a (Ha & _). exact Ha.
    - intros Hk. apply split_join_pieces; [exact Hk|].
      unfold kept_readings. apply Forall_forall. intros r Hr.
      apply filter_In in Hr. destruct Hr as (Hr & _).
      apply in_map_iff in Hr. destruct Hr as (item & <- & Hitem).
      rewrite Forall_forall in Hl. exact (proj2 (Hl item Hitem)). }
  apply Forall_app in Hall. destruct Hall as (Htone & Hbopo).
  destruct (Hsplit tone Htone) as (Ft & St).
  destruct (Hsplit bopomofo Hbopo) as (Fb & Sb).
  exists (join [SPACE] (kept_readings tone)),
         (join [SPACE] (kept_readings bopomofo)).
  unfold get_pinyin_from_characters, get_zhuyin_from_characters.
  destruct characters as [|c cs]; [congruence|]. simpl truthy. simpl negb.
  cbv iota. rewrite Ht, Hb. cbn [bind]. rewrite Ft, Fb. cbn [bind].
  repeat split; try assumption; intros ->; reflexivity.
Qed.

Lemma transliteration_is_space_separated_witness :
  exists pin zhu,
    get_pinyin_from_characters echo_pinyin NIHAO = Ok pin
    /\ get_zhuyin_from_characters echo_pinyin NIHAO = Ok zhu
    /\ (kept_readings [[[0x4F60%N]]; [[0x597D%N]]] <> [] ->
        split SPACE None pin = kept_readings [[[0x4F60%N]]; [[0x597D%N]]])
    /\ (kept_readings [[[0x4F60%N]]; [[0x597D%N]]] <> [] ->
        split SPACE None zhu = kept_readings [[[0x4F60%N]]; [[0x597D%N]]])
    /\ (kept_readings [[[0x4F60%N]]; [[0x597D%N]]] = [] -> pin = [])
    /\ (kept_readings [[[0x4F60%N]]; [[0x597D%N]]] = [] -> zhu = []).
Proof.
  apply (transliteration_is_space_separated echo_pinyin NIHAO
           [[[0x4F60%N]]; [[0x597D%N]]] [[[0x4F60%N]]; [[0x597D%N]]]).
  - discriminate.
  - reflexivity.
  - reflexivity.
  - repeat constructor; try discriminate; vm_compute; intuition discriminate.
Defined.

(* ===================================================================== *)
(** ** Further properties of the batch driver *)
(* ===================================================================== *)

Section DriverMore.

Variable pypinyin : str -> Style -> result (list (list str)).

Lemma entries_of_app (l1 l2 : list str) :
  entries_of pypinyin (l1 ++ l2)
  = entries_of pypinyin l1 ++ entries_of pypinyin l2.
Proof. unfold entries_of. apply flat_map_app. Qed.

Lemma warnings_from_app (l1 l2 : list str) :
  forall n,
    warnings_from pypinyin n (l1 ++ l2)
    = warnings_from pypinyin n l1
        ++ warnings_from pypinyin (length l1 + n) l2.
Proof.
  induction l1 as [|line l1 IH]; intros n; simpl; [reflexivity|].
  rewrite IH. replace (length l1 + S n) with (S (length l1 + n)) by lia.
  destruct (parse_cc_cedict_line pypinyin line); reflexivity.
Qed.

Lemma warnings_from_shift (k : nat) (l : list str) :
  forall n,
    warnings_from pypinyin (k + n) l
    = map (shift_warning k) (warnings_from pypinyin n l).
Proof.
  induction l as [|line l IH]; intros n; simpl; [reflexivity|].
  replace (S (k + n)) with (k + S n) by lia. rewrite IH.
  destruct (parse_cc_cedict_line pypinyin line); reflexivity.
Qed.

Lemma warnings_from_lt (lines : list str) :
  forall (line_num : nat) (lw : warning),
    In lw (warnings_from pypinyin line_num lines) ->
    fst lw < line_num + length lines.
Proof.
  induction lines as [|line lines IH]; intros n lw; simpl; [tauto|].
  destruct (parse_cc_cedict_line pypinyin line) as [r|exn].
  - intros H. apply IH in H. lia.
  - intros [<-|H]; [simpl; lia|]. apply IH in H. lia.
Qed.

Lemma warnings_from_sorted (lines : list str) :
  forall line_num,
    StronglySorted lt (map fst (warnings_from pypinyin line_num lines)).
Proof.
  induction lines as [|line lines IH]; intros n; simpl; [constructor|].
  destruct (parse_cc_cedict_line pypinyin line) as [r|exn]; [apply IH|].
  simpl. constructor; [apply IH|].
  apply Forall_forall. intros k Hk. apply in_map_iff in Hk.
  destruct Hk as (lw & <- & Hlw). apply warnings_from_ge in Hlw. lia.
Qed.

Lemma driver_count (lines : list str) :
  forall n,
    length (entries_of pypinyin lines)
    + length (warnings_from pypinyin n lines)
    + length (skipped_of pypinyin lines)
    = length lines.
Proof.
  induction lines as [|line lines IH]; intros n; [reflexivity|].
  specialize (IH (S n)). unfold entries_of, skipped_of in *. simpl.
  destruct (parse_cc_cedict_line pypinyin line) as [[e|]|exn];
    simpl; rewrite ?length_app; simpl; lia.
Qed.

Lemma no_fault_when_total (line : str) (e : exception) :
  pypinyin_total pypinyin ->
  parse_cc_cedict_line pypinyin line <> Raise e.
Proof.
  intros Htotal H.
  destruct (parse_raise_source _ _ _ H)
    as (t & s & rest & style & _ & _ & Hsrc).
  destruct (Htotal t style) as (l & Hl & Hitems).
  destruct Hsrc as [Hr|(l' & Hl' & Hin & _)]; [congruence|].
  rewrite Hl in Hl'. injection Hl' as <-.
  rewrite Forall_forall in Hitems. exact (Hitems [] Hin eq_refl).
Qed.

Lemma warnings_from_total (lines : list str) :
  pypinyin_total pypinyin ->
  forall n, warnings_from pypinyin n lines = [].
Proof.
  intros Htotal. induction lines as [|line lines IH]; intros n; simpl;
    [reflexivity|].
  destruct (parse_cc_cedict_line pypinyin line) as [r|exn] eqn:E;
    [apply IH|].
  exfalso. exact (no_fault_when_total line exn Htotal E).
Qed.

End DriverMore.

(** X8.  The driver works line by line: on a file made of two chunks it
    returns the entries of the first chunk followed by those of the
    second, and the warnings of the first followed by those of the second
    with their line numbers moved by the length of the first. *)
Theorem driver_on_two_chunks
    (pypinyin : str -> Style -> result (list (list str)))
    (chunk1 chunk2 : list str) :
  parse_cc_cedict_file pypinyin (chunk1 ++ chunk2)
  = (fst (parse_cc_cedict_file pypinyin chunk1)
       ++ fst (parse_cc_cedict_file pypinyin chunk2),
     snd (parse_cc_cedict_file pypinyin chunk1)
       ++ map (shift_warning (length chunk1))
              (snd (parse_cc_cedict_file pypinyin chunk2))).
Proof.
  rewrite !parse_cc_cedict_file_spec. simpl fst. simpl snd.
  rewrite entries_of_app, warnings_from_app, warnings_from_shift.
  reflexivity.
Qed.

(** X9.  Every line is accounted for once: the number of entries, the
    number of warnings and the number of skipped lines add up to the
    number of lines. *)
Theorem driver_accounts_for_every_line
    (pypinyin : str -> Style -> result (list (list str)))
    (lines : list str) :
  length (fst (parse_cc_cedict_file pypinyin lines))
  + length (snd (parse_cc_cedict_file pypinyin lines))
  + length (skipped_of pypinyin lines)
  = length lines.
Proof.
  rewrite parse_cc_cedict_file_spec. simpl fst. simpl snd.
  apply driver_count.
Qed.

(** X10.  The warnings come in the order of the lines: their line numbers
    are strictly increasing, and each is between 1 and the number of
    lines. *)
Theorem warnings_are_in_line_order
    (pypinyin : str -> Style -> result (list (list str)))
    (lines : list str) :
  StronglySorted lt (map fst (snd (parse_cc_cedict_file pypinyin lines)))
  /\ Forall (fun lw => 1 <= fst lw <= length lines)
            (snd (parse_cc_cedict_file pypinyin lines)).
Proof.
  rewrite parse_cc_cedict_file_spec. simpl snd. split.
  - apply warnings_from_sorted.
  - apply Forall_forall. intros lw Hlw. split.
    + exact (warnings_from_ge _ _ _ _ Hlw).
    + pose proof (warnings_from_lt _ _ _ _ Hlw). lia.
Qed.

(** X11.  Warnings come from pypinyin only: when pypinyin never raises
    and returns no empty item, the driver prints no warning on any
    file. *)
Theorem no_warning_when_pypinyin_total
    (pypinyin : str -> Style -> result (list (list str)))
    (lines : list str) :
  pypinyin_total pypinyin ->
  snd (parse_cc_cedict_file pypinyin lines) = [].
Proof.
  intros Htotal. rewrite parse_cc_cedict_file_spec. simpl snd.
  now apply warnings_from_total.
Qed.

Lemma no_warning_when_pypinyin_total_witness :
  snd (parse_cc_cedict_file echo_pinyin four_lines) = [].
Proof.
  apply (no_warning_when_pypinyin_total echo_pinyin four_lines).
  exact echo_pinyin_total.
Defined.

(* ===================================================================== *)
(** ** Further properties of the JSON text *)
(* ===================================================================== *)

Section JsonText.

Import Json JsonFacts.

Lemma all_strings_list (Q : str -> Prop) (l : list value) :
  all_strings Q (VList l) <-> Forall (all_strings Q) l.
Proof.
  induction l as [|x l IH].
  - split; [constructor | exact (fun _ => I)].
  - split.
    + intros (Hx & Hl). constructor; [exact Hx | apply IH, Hl].
    + intros H. inversion H; subst. split; [assumption | now apply IH].
Qed.

Lemma all_strings_dict (Q : str -> Prop) (items : list (str * value)) :
  all_strings Q (VDict items)
  <-> Forall (fun kv => Q (fst kv) /\ all_strings Q (snd kv)) items.
Proof.
  induction items as [|kv items IH].
  - split; [constructor | exact (fun _ => I)].
  - split.
    + intros (Hx & Hl). constructor; [exact Hx | apply IH, Hl].
    + intros H. inversion H; subst. split; [assumption | now apply IH].
Qed.

Lemma Forall_join (P : char -> Prop) (sep : str) (ps : list str) :
  Forall P sep -> Forall (Forall P) ps -> Forall P (join sep ps).
Proof.
  intros Hsep. induction 1 as [|p ps Hp Hps IH]; [constructor|].
  destruct ps as [|q ps]; [exact Hp|].
  rewrite join_two. apply Forall_app. split; [exact Hp|].
  apply Forall_app. split; [exact Hsep | exact IH].
Qed.

Variable P : char -> Prop.
Variable Q : str -> Prop.
Hypothesis syntax_ok : Forall P syntax_chars.
Hypothesis strings_ok : forall s, Q s -> Forall P (flat_map escape_char s).

Lemma syntax_char_ok (c : char) : In c syntax_chars -> P c.
Proof. intros H. rewrite Forall_forall in syntax_ok. now apply syntax_ok. Qed.

Ltac syntax_char := apply syntax_char_ok; vm_compute; tauto.

Lemma newline_indent_ok (level : nat) : Forall P (newline_indent level).
Proof.
  unfold newline_indent. constructor; [syntax_char|].
  induction (2 * level) as [|n IH]; simpl; constructor;
    [syntax_char | exact IH].
Qed.

Lemma encode_basestring_ok (s : str) : Q s -> Forall P (encode_basestring s).
Proof.
  intros H. unfold encode_basestring. constructor; [syntax_char|].
  apply Forall_app. split; [now apply strings_ok|].
  constructor; [syntax_char | constructor].
Qed.

Lemma separator_ok (level : nat) : Forall P (separator level).
Proof.
  unfold separator. constructor; [syntax_char | apply newline_indent_ok].
Qed.

(** Every character of the text of a value is a character of the syntax
    or comes from the escaping of one of its strings. *)
Lemma encode_ok :
  forall v, all_strings Q v -> forall level, Forall P (encode level v).
Proof.
  induction v as [|b|s|l IH|items IH] using value_nested_ind;
    intros Hv level.
  - repeat constructor; syntax_char.
  - destruct b; repeat constructor; syntax_char.
  - now apply encode_basestring_ok.
  - destruct l as [|x xs]; [repeat constructor; syntax_char|].
    rewrite encode_list_eq. apply all_strings_list in Hv.
    constructor; [syntax_char|].
    apply Forall_app. split; [apply newline_indent_ok|].
    apply Forall_app. split.
    + apply Forall_join; [apply separator_ok|].
      apply Forall_forall. intros t Ht. apply in_map_iff in Ht.
      destruct Ht as (y & <- & Hy).
      rewrite Forall_forall in IH, Hv. apply IH; [exact Hy | now apply Hv].
    + apply Forall_app. split; [apply newline_indent_ok|].
      constructor; [syntax_char | constructor].
  - destruct items as [|kv items]; [repeat constructor; syntax_char|].
    rewrite encode_dict_eq. apply all_strings_dict in Hv.
    constructor; [syntax_char|].
    apply Forall_app. split; [apply newline_indent_ok|].
    apply Forall_app. split.
    + apply Forall_join; [apply separator_ok|].
      apply Forall_forall. intros t Ht. apply in_map_iff in Ht.
      destruct Ht as (y & <- & Hy).
      rewrite Forall_forall in IH, Hv. destruct (Hv y Hy) as (Hk & Hval).
      unfold item_text. apply Forall_app. split;
        [now apply encode_basestring_ok|].
      apply Forall_app. split; [repeat constructor; syntax_char|].
      now apply IH.
    + apply Forall_app. split; [apply newline_indent_ok|].
      constructor; [syntax_char | constructor].
Qed.

(** The strings of the value written for a list of entries are the keys
    and the strings of the entries. *)
Lemma all_strings_entries (entries : list entry) :
  Forall Q [lit "traditional"; lit "simplified"; lit "pinyin";
            lit "zhuyin"; lit "meaning"; lit "is_idiom"] ->
  Forall (fun e => Forall Q (entry_strings e)) entries ->
  all_strings Q (VList (map entry_value entries)).
Proof.
  intros Hkeys Hall. apply all_strings_list.
  apply Forall_forall. intros v Hv. apply in_map_iff in Hv.
  destruct Hv as (e & <- & He).
  rewrite Forall_forall in Hall. specialize (Hall e He).
  unfold entry_strings in Hall.
  inversion Hall as [|? ? Ht H1]; subst. inversion H1 as [|? ? Hs H2]; subst.
  inversion H2 as [|? ? Hp H3]; subst. inversion H3 as [|? ? Hz Hm]; subst.
  inversion Hkeys as [|? ? K1 K]; subst. inversion K as [|? ? K2 K']; subst.
  inversion K' as [|? ? K3 K'']; subst. inversion K'' as [|? ? K4 K5]; subst.
  inversion K5 as [|? ? K6 K7]; subst. inversion K7 as [|? ? K8 _]; subst.
  apply all_strings_dict. unfold entry_items.
  repeat (constructor; [split; [assumption | try exact I; try assumption]|]);
    try constructor.
  apply all_strings_list. apply Forall_forall. intros v Hv.
  apply in_map_iff in Hv. destruct Hv as (g & <- & Hg).
  rewrite Forall_forall in Hm. now apply Hm.
Qed.

End JsonText.

Lemma escape_char_printable (c : char) :
  Forall (fun x => (32 <= x)%N) (Json.escape_char c).
Proof.
  unfold Json.escape_char.
  repeat match goal with
         | |- context [if (c =? ?k)%N then _ else _] =>
             destruct (N.eqb_spec c k);
             [repeat constructor; unfold BACKSLASH, QUOTE; lia|]
         end.
  destruct (N.ltb_spec c 32).
  - assert (Hd : forall n, (32 <= Json.hex_digit n)%N).
    { intros k. unfold Json.hex_digit. destruct (k <? 10)%N; lia. }
    repeat constructor; try apply Hd; unfold BACKSLASH; lia.
  - repeat constructor. assumption.
Qed.

Lemma escape_char_plain (c : char) :
  plain_char c -> Json.escape_char c = [c].
Proof.
  intros (Hge & Hq & Hb). unfold Json.escape_char.
  destruct (N.eqb_spec c BACKSLASH); [contradiction|].
  destruct (N.eqb_spec c QUOTE); [contradiction|].
  repeat match goal with
         | |- context [if (c =? ?k)%N then _ else _] =>
             destruct (N.eqb_spec c k); [lia|]
         end.
  destruct (N.ltb_spec c 32); [lia | reflexivity].
Qed.




(* ===================================================================== *)
(** ** Properties of the program in its environment *)
(* ===================================================================== *)

Section ProgramFacts.

Variable pypinyin : str -> Style -> result (list (list str)).
Variable w : IO.world.

Lemma print_all_spec (ms : list IO.message) :
  forall st, IO.print_all ms st = (IO.Return tt, IO.with_stdout ms st).
Proof.
  unfold IO.with_stdout.
  induction ms as [|m ms IH]; intros st; simpl.
  - unfold IO.ret. rewrite app_nil_r. now destruct st.
  - unfold IO.io_bind, IO.print. rewrite IH. simpl.
    now rewrite <- app_assoc.
Qed.

(** The whole of [parse_cc_cedict_file], case by case. *)
Lemma io_parse_spec (input_path : str) (st : IO.state) :
  IO.parse_cc_cedict_file pypinyin w input_path st
  = match IO.open_fault w with
    | Some IO.FileNotFoundError =>
        (IO.SysExit 1, IO.with_stdout [IO.InputNotFound input_path] st)
    | Some (IO.OtherException msg) =>
        (IO.SysExit 1,
         IO.with_stdout [IO.ErrorReading (IO.OtherException msg)] st)
    | None =>
        let parsed := parse_cc_cedict_file pypinyin (IO.file_lines w) in
        let st' :=
          IO.with_stdout
            (map (fun lw => IO.LineWarning (fst lw) (snd lw)) (snd parsed))
            st in
        match IO.read_fault w with
        | Some IO.FileNotFoundError =>
            (IO.SysExit 1, IO.with_stdout [IO.InputNotFound input_path] st')
        | Some (IO.OtherException msg) =>
            (IO.SysExit 1,
             IO.with_stdout [IO.ErrorReading (IO.OtherException msg)] st')
        | None => (IO.Return (fst parsed), st')
        end
    end.
Proof.
  unfold IO.parse_cc_cedict_file.
  destruct (IO.open_fault w) as [[|msg]|]; try reflexivity.
  cbv zeta. unfold IO.io_bind at 1. rewrite print_all_spec.
  destruct (IO.read_fault w) as [[|msg]|]; reflexivity.
Qed.

(** The whole of [save_to_json], case by case. *)
Lemma io_save_spec (entries : list entry) (output_path : str)
    (st : IO.state) :
  IO.save_to_json w entries output_path st
  = match IO.create_fault w with
    | Some e => (IO.SysExit 1, IO.with_stdout [IO.ErrorWriting e] st)
    | None =>
        match IO.write_fault w (save_to_json entries) with
        | Some e =>
            (IO.SysExit 1,
             IO.mkState (IO.stdout st ++ [IO.ErrorWriting e])
                        (IO.made_dir st) IO.Incomplete)
        | None =>
            (IO.Return tt,
             IO.mkState
               (IO.stdout st ++ [IO.Saved (length entries) output_path])
               (IO.made_dir st) (IO.Complete (save_to_json entries)))
        end
    end.
Proof.
  unfold IO.save_to_json.
  destruct (IO.create_fault w) as [e|]; [reflexivity|].
  cbv zeta. destruct (IO.write_fault w (save_to_json entries)); reflexivity.
Qed.

End ProgramFacts.

Section MainFacts.

Variable pypinyin : str -> Style -> result (list (list str)).
Variable w : IO.world.
Variables input_dict_path output_path : str.

(** The whole of [main], case by case. *)
Lemma main_spec :
  IO.main pypinyin w input_dict_path output_path IO.initial
  = if negb (IO.input_exists w) then
      (IO.SysExit 1,
       IO.mkState [IO.InputMissing input_dict_path] false IO.Untouched)
    else
      match (if IO.output_dir_exists w then None else IO.mkdir_fault w) with
      | Some e => (IO.Uncaught e, IO.initial)
      | None =>
          match IO.parse_cc_cedict_file pypinyin w input_dict_path
                  (IO.mkState [IO.Parsing input_dict_path]
                              (negb (IO.output_dir_exists w)) IO.Untouched)
          with
          | (IO.Return entries, st) =>
              if negb (truthy entries) then
                (IO.SysExit 1, IO.with_stdout [IO.NoEntries] st)
              else
                IO.save_to_json w entries output_path
                  (IO.with_stdout [IO.Found (length entries)] st)
          | (IO.SysExit code, st) => (IO.SysExit code, st)
          | (IO.Uncaught e, st) => (IO.Uncaught e, st)
          end
      end.
Proof.
  unfold IO.main.
  destruct (IO.input_exists w); [|reflexivity].
  destruct (IO.output_dir_exists w); [|destruct (IO.mkdir_fault w)];
    try reflexivity;
    unfold IO.io_bind, IO.ret, IO.print, IO.set_made_dir; simpl;
    match goal with
    | |- context [IO.parse_cc_cedict_file ?p ?x ?i ?st] =>
        destruct (IO.parse_cc_cedict_file p x i st) as [[entries|code|e] st']
    end; try reflexivity;
    destruct entries; reflexivity.
Qed.

(** No entry comes out of lines that are all blank or comments. *)
Lemma entries_of_skipped (lines : list str) :
  Forall (fun line => strip line = [] \/ startswith line [HASH] = true)
         lines ->
  entries_of pypinyin lines = [].
Proof.
  induction 1 as [|line lines Hline _ IH]; [reflexivity|].
  unfold entries_of in *. simpl. rewrite IH, app_nil_r.
  unfold parse_cc_cedict_line.
  destruct Hline as [H|H]; [now rewrite H | now rewrite H, orb_true_r].
Qed.

End MainFacts.

Lemma loads_save_to_json (entries : list entry) :
  Json.loads (save_to_json entries) = Some (VList (map entry_value entries)).
Proof. apply JsonFacts.loads_dumps, JsonFacts.well_formed_entries. Qed.

(** The text and the driver stay folded while the cases are computed. *)
Arguments save_to_json : simpl never.
Arguments parse_cc_cedict_file : simpl never.

(** Cases on every answer of the environment and on the entries. *)
Ltac run_main p w i o :=
  rewrite ?(main_spec p w i o), ?io_parse_spec;
  destruct (IO.input_exists w), (IO.output_dir_exists w),
    (IO.mkdir_fault w) as [?e|],
    (IO.open_fault w) as [[|?msg]|], (IO.read_fault w) as [[|?msg]|];
  cbn;
  try (destruct (fst (parse_cc_cedict_file p (IO.file_lines w)))
         as [|?entry ?entries] eqn:?Hentries;
       cbn; rewrite ?io_save_spec;
       try (destruct (IO.create_fault w) as [?e|];
            try destruct (IO.write_fault w _) as [?e|] eqn:?Hwrite;
            cbn)).

(** X14.  [parse_cc_cedict_file] as a whole: when the input opens and is
    read to its end, the function prints the warnings of the loop, in
    order, and returns its entries; a fault while opening or reading makes
    the program exit with status 1, whatever was parsed before it, and
    touches neither the output directory nor the output file. *)
Theorem read_fault_ends_the_run
    (pypinyin : str -> Style -> result (list (list str)))
    (w : IO.world) (input_path : str) (st : IO.state) :
  (IO.open_fault w = None -> IO.read_fault w = None ->
   IO.parse_cc_cedict_file pypinyin w input_path st
   = (IO.Return (fst (parse_cc_cedict_file pypinyin (IO.file_lines w))),
      IO.with_stdout
        (map (fun lw => IO.LineWarning (fst lw) (snd lw))
             (snd (parse_cc_cedict_file pypinyin (IO.file_lines w))))
        st))
  /\ (IO.open_fault w <> None \/ IO.read_fault w <> None ->
      fst (IO.parse_cc_cedict_file pypinyin w input_path st) = IO.SysExit 1
      /\ IO.made_dir (snd (IO.parse_cc_cedict_file pypinyin w input_path st))
         = IO.made_dir st
      /\ IO.output_file
           (snd (IO.parse_cc_cedict_file pypinyin w input_path st))
         = IO.output_file st).
Proof.
  rewrite io_parse_spec. split.
  - intros -> ->. reflexivity.
  - destruct (IO.open_fault w) as [[|msg]|],
      (IO.read_fault w) as [[|msg']|]; cbn; intros [H|H];
      try congruence; auto.
Qed.

Lemma read_fault_ends_the_run_witness :
  fst (IO.parse_cc_cedict_file echo_pinyin world_with_read_fault
         (lit "in") IO.initial) = IO.SysExit 1
  /\ IO.made_dir (snd (IO.parse_cc_cedict_file echo_pinyin
                         world_with_read_fault (lit "in") IO.initial))
     = IO.made_dir IO.initial
  /\ IO.output_file (snd (IO.parse_cc_cedict_file echo_pinyin
                            world_with_read_fault (lit "in") IO.initial))
     = IO.output_file IO.initial.
Proof.
  apply (proj2 (read_fault_ends_the_run echo_pinyin world_with_read_fault
                  (lit "in") IO.initial)).
  right. discriminate.
Defined.

(** X15.  [main] ends normally exactly when every step worked: the input
    exists, the output directory exists or could be made, the input
    opened and was read to its end, at least one entry was parsed, and the
    output was created and written.  In every other case it does not
    return. *)
Theorem main_succeeds_exactly_when
    (pypinyin : str -> Style -> result (list (list str)))
    (w : IO.world) (input_dict_path output_path : str) :
  fst (IO.main pypinyin w input_dict_path output_path IO.initial)
  = IO.Return tt
  <-> (IO.input_exists w = true
       /\ (IO.output_dir_exists w = true \/ IO.mkdir_fault w = None)
       /\ IO.open_fault w = None
       /\ IO.read_fault w = None
       /\ fst (parse_cc_cedict_file pypinyin (IO.file_lines w)) <> []
       /\ IO.create_fault w = None
       /\ IO.write_fault w
            (save_to_json
               (fst (parse_cc_cedict_file pypinyin (IO.file_lines w))))
          = None).
Proof.
  run_main pypinyin w input_dict_path output_path;
    rewrite ?Hwrite;
    (split; [intros H; try discriminate; repeat split; auto; discriminate
            | intros (H1 & H2 & H3 & H4 & H5 & H6 & H7);
              try discriminate; try reflexivity; try congruence;
              destruct H2; discriminate]).
Qed.

(** X16.  The output file holds a whole text only when [main] ended
    normally, and then the text is the JSON of all the parsed entries, of
    which there is at least one, and [json.loads] reads it back as those
    entries. *)
Theorem complete_output_is_the_parsed_entries
    (pypinyin : str -> Style -> result (list (list str)))
    (w : IO.world) (input_dict_path output_path text : str) :
  IO.output_file
    (snd (IO.main pypinyin w input_dict_path output_path IO.initial))
  = IO.Complete text ->
  fst (IO.main pypinyin w input_dict_path output_path IO.initial)
  = IO.Return tt
  /\ text
     = save_to_json (fst (parse_cc_cedict_file pypinyin (IO.file_lines w)))
  /\ fst (parse_cc_cedict_file pypinyin (IO.file_lines w)) <> []
  /\ Json.loads text
     = Some (VList
               (map entry_value
                  (fst (parse_cc_cedict_file pypinyin (IO.file_lines w))))).
Proof.
  run_main pypinyin w input_dict_path output_path;
    intros H; try discriminate;
    injection H as <-;
    (split; [reflexivity|]); (split; [reflexivity|]);
    (split; [discriminate|]);
    exact (loads_save_to_json _).
Qed.

Lemma complete_output_is_the_parsed_entries_witness :
  fst (IO.main failing_pinyin (IO.quiet_world four_lines)
         (lit "cedict_ts.u8") (lit "out.json") IO.initial)
  = IO.Return tt
  /\ save_to_json
       (fst (parse_cc_cedict_file failing_pinyin four_lines))
     = save_to_json
         (fst (parse_cc_cedict_file failing_pinyin
                 (IO.file_lines (IO.quiet_world four_lines))))
  /\ fst (parse_cc_cedict_file failing_pinyin
            (IO.file_lines (IO.quiet_world four_lines))) <> []
  /\ Json.loads
       (save_to_json (fst (parse_cc_cedict_file failing_pinyin four_lines)))
     = Some (VList
               (map entry_value
                  (fst (parse_cc_cedict_file failing_pinyin
                          (IO.file_lines (IO.quiet_world four_lines)))))).
Proof.
  apply (complete_output_is_the_parsed_entries failing_pinyin
           (IO.quiet_world four_lines) (lit "cedict_ts.u8") (lit "out.json")
           (save_to_json
              (fst (parse_cc_cedict_file failing_pinyin four_lines)))).
  vm_compute. reflexivity.
Defined.

(** X17.  The output file is opened, and so emptied, only after the whole
    input was read without fault and gave at least one entry: on a missing
    or unreadable input, or one without entries, an output file that was
    there is left as it was. *)
Theorem output_is_opened_only_with_entries
    (pypinyin : str -> Style -> result (list (list str)))
    (w : IO.world) (input_dict_path output_path : str) :
  IO.output_file
    (snd (IO.main pypinyin w input_dict_path output_path IO.initial))
  <> IO.Untouched ->
  IO.input_exists w = true
  /\ IO.open_fault w = None
  /\ IO.read_fault w = None
  /\ fst (parse_cc_cedict_file pypinyin (IO.file_lines w)) <> []
  /\ IO.create_fault w = None.
Proof.
  run_main pypinyin w input_dict_path output_path;
    intros H; try (exfalso; apply H; reflexivity);
    repeat split; discriminate.
Qed.

Lemma output_is_opened_only_with_entries_witness :
  IO.input_exists (IO.quiet_world four_lines) = true
  /\ IO.open_fault (IO.quiet_world four_lines) = None
  /\ IO.read_fault (IO.quiet_world four_lines) = None
  /\ fst (parse_cc_cedict_file echo_pinyin
            (IO.file_lines (IO.quiet_world four_lines))) <> []
  /\ IO.create_fault (IO.quiet_world four_lines) = None.
Proof.
  apply (output_is_opened_only_with_entries echo_pinyin
           (IO.quiet_world four_lines) (lit "in") (lit "out")).
  vm_compute. discriminate.
Defined.

(** X18.  [main] from the point where [parser.parse_args()] has returned
    the two paths, with both calls of [Path.exists()] answering and every
    [print] returning (argparse makes its own exits before that point,
    with status 2 on a usage error and 0 on [-h]; they are not modelled):
    every [sys.exit] then reached has status 1, and the only exception that
    can leave [IO.main] uncaught is the one [mkdir] raises, in which case
    nothing was printed, read or written. *)
Theorem main_exits_with_status_one
    (pypinyin : str -> Style -> result (list (list str)))
    (w : IO.world) (input_dict_path output_path : str) :
  (forall code,
      fst (IO.main pypinyin w input_dict_path output_path IO.initial)
      = IO.SysExit code -> code = 1)
  /\ (forall e,
         fst (IO.main pypinyin w input_dict_path output_path IO.initial)
         = IO.Uncaught e ->
         IO.input_exists w = true
         /\ IO.output_dir_exists w = false
         /\ IO.mkdir_fault w = Some e
         /\ snd (IO.main pypinyin w input_dict_path output_path IO.initial)
            = IO.initial).
Proof.
  run_main pypinyin w input_dict_path output_path;
    (split; [intros code H; try discriminate; now injection H
            | intros e' H; try discriminate;
              injection H as <-; repeat split; reflexivity]).
Qed.

Lemma main_exits_with_status_one_witness :
  IO.input_exists world_without_directory = true
  /\ IO.output_dir_exists world_without_directory = false
  /\ IO.mkdir_fault world_without_directory
     = Some (IO.OtherException (lit "permission denied"))
  /\ snd (IO.main echo_pinyin world_without_directory (lit "in")
            (lit "dir/out") IO.initial)
     = IO.initial.
Proof.
  apply (proj2 (main_exits_with_status_one echo_pinyin
                  world_without_directory (lit "in") (lit "dir/out"))).
  reflexivity.
Defined.

(** X19.  An input made of blank lines and comments only never ends well:
    whatever pypinyin does, [main] does not return normally and the output
    file is not opened. *)
Theorem comments_only_input_fails
    (pypinyin : str -> Style -> result (list (list str)))
    (w : IO.world) (input_dict_path output_path : str) :
  Forall (fun line => strip line = [] \/ startswith line [HASH] = true)
         (IO.file_lines w) ->
  fst (IO.main pypinyin w input_dict_path output_path IO.initial)
  <> IO.Return tt
  /\ IO.output_file
       (snd (IO.main pypinyin w input_dict_path output_path IO.initial))
     = IO.Untouched.
Proof.
  intros Hlines.
  assert (Hnone : fst (parse_cc_cedict_file pypinyin (IO.file_lines w)) = []).
  { rewrite parse_cc_cedict_file_spec. simpl.
    now apply entries_of_skipped. }
  run_main pypinyin w input_dict_path output_path;
    try (split; [discriminate | reflexivity]);
    rewrite Hnone in *; discriminate.
Qed.

Lemma comments_only_input_fails_witness :
  fst (IO.main failing_pinyin world_of_comments (lit "in") (lit "out")
         IO.initial) <> IO.Return tt
  /\ IO.output_file
       (snd (IO.main failing_pinyin world_of_comments (lit "in") (lit "out")
               IO.initial))
     = IO.Untouched.
Proof.
  apply (comments_only_input_fails failing_pinyin world_of_comments).
  constructor; [right; reflexivity|].
  constructor; [left; reflexivity|]. constructor.
Defined.

(** X20.  The output directory is made before the input is read: it has
    been made at the end of the run exactly when the input exists, the
    directory did not and [mkdir] worked, also when the run then fails for
    want of entries or on a fault. *)
Theorem directory_is_made_before_reading
    (pypinyin : str -> Style -> result (list (list str)))
    (w : IO.world) (input_dict_path output_path : str) :
  IO.made_dir
    (snd (IO.main pypinyin w input_dict_path output_path IO.initial)) = true
  <-> (IO.input_exists w = true
       /\ IO.output_dir_exists w = false
       /\ IO.mkdir_fault w = None).
Proof.
  run_main pypinyin w input_dict_path output_path;
    (split; [intros H; try discriminate; repeat split; reflexivity
            | intros (H1 & H2 & H3); try discriminate; reflexivity]).
Qed.
